(** * ColorPicker: the colour model and the picker sessions

    A shallow embedding of the two picker implementations of the
    repository: [script.js] (class [ColorUtils] and the RGB-backed
    [ColorPicker]) and the second, HSL-backed [ColorPicker] of the
    unnamed source file (module [Part000]).

    Numbers.  A JavaScript Number is modelled by an exact rational
    ([Q]); a value the code obtains from [parseInt], [Math.round] or a
    hexadecimal digit pair is an integer ([Z]).  [NaN] is [None] where a
    builtin can produce it ([parseInt]).  Infinities and the rounding of
    IEEE doubles are outside the model; the concrete evaluations quoted
    in the statements below were chosen where exact and double
    arithmetic agree.  [Math.pow] is a parameter of the luminance
    functions. *)

From Stdlib Require Import ZArith QArith Qround Lqa Lia.
From Stdlib Require Import List String Ascii Bool.
From Stdlib Require Import DecimalString HexadecimalString DecimalPos.
Import ListNotations.

Open Scope Z_scope.

(** ** JavaScript builtins *)

Module Js.

(** [x < y] on numbers. *)
Definition ltb (x y : Q) : bool := negb (Qle_bool y x).

(** [Math.round]: nearest integer, ties towards +infinity. *)
Definition Math_round (x : Q) : Z := Qfloor (x + (1 # 2)).

Definition Math_max (x y : Q) : Q := if Qle_bool x y then y else x.
Definition Math_min (x y : Q) : Q := if Qle_bool x y then x else y.
Definition Math_max3 (x y z : Q) : Q := Math_max (Math_max x y) z.
Definition Math_min3 (x y z : Q) : Q := Math_min (Math_min x y) z.

(** [a % n] on integers: the remainder takes the sign of the dividend. *)
Definition rem (a n : Z) : Z := Z.rem a n.

(** [a % n] on numbers: [a - n * trunc (a / n)]. *)
Definition Qtrunc (x : Q) : Z := if Qle_bool 0 x then Qfloor x else Qceiling x.
Definition Qrem (a n : Q) : Q := (a - n * inject_Z (Qtrunc (a / n)))%Q.

(** [n.toString(16)] and [String(n)] of an integer. *)
Definition toString16 (n : Z) : string :=
  HexadecimalString.NilZero.string_of_int (Z.to_hex_int n).
Definition toString (n : Z) : string :=
  DecimalString.NilZero.string_of_int (Z.to_int n).

(** White space skipped by [parseInt] and removed by [trim]
    (the ASCII part of it). *)
Definition isSpace (c : ascii) : bool :=
  let n := nat_of_ascii c in
  ((n =? 32) || (n =? 9) || (n =? 10) || (n =? 11) || (n =? 12) || (n =? 13))%nat.

Fixpoint skipSpaces (s : string) : string :=
  match s with
  | String c s' => if isSpace c then skipSpaces s' else s
  | EmptyString => EmptyString
  end.

Definition decDigit (c : ascii) : option Z :=
  let n := Z.of_nat (nat_of_ascii c) in
  if (48 <=? n) && (n <=? 57) then Some (n - 48) else None.

(** The value of a character of the class [[a-f\d]] under the [i] flag. *)
Definition hexDigit (c : ascii) : option Z :=
  let n := Z.of_nat (nat_of_ascii c) in
  if (48 <=? n) && (n <=? 57) then Some (n - 48)
  else if (97 <=? n) && (n <=? 102) then Some (n - 87)
  else if (65 <=? n) && (n <=? 70) then Some (n - 55)
  else None.

(** The longest prefix of digits of a radix, read most significant
    first; [None] when there is no digit. *)
Fixpoint digits (digit : ascii -> option Z) (radix : Z) (acc : option Z)
    (s : string) : option Z :=
  match s with
  | String c s' =>
      match digit c with
      | Some d =>
          digits digit radix
            (Some (match acc with Some a => a * radix + d | None => d end)) s'
      | None => acc
      end
  | EmptyString => acc
  end.

(** [parseInt(s)] without a radix: leading white space, an optional
    sign, an optional [0x] prefix, then the longest run of digits;
    [None] is [NaN]. *)
Definition parseInt (s : string) : option Z :=
  let s := skipSpaces s in
  let '(sign, s) :=
    match s with
    | String "-" s' => (-1, s')
    | String "+" s' => (1, s')
    | _ => (1, s)
    end in
  let mag :=
    match s with
    | String "0" (String "x" s') => digits hexDigit 16 None s'
    | String "0" (String "X" s') => digits hexDigit 16 None s'
    | _ => digits decDigit 10 None s
    end in
  option_map (Z.mul sign) mag.

(** [parseInt(x) || 0]: [NaN] and [0] are both falsy. *)
Definition orZero (v : option Z) : Z :=
  match v with Some n => n | None => 0 end.

(** [s.trim()]. *)
Fixpoint dropTrailing (s : string) : string :=
  match s with
  | String c s' =>
      match dropTrailing s' with
      | EmptyString => if isSpace c then EmptyString else String c EmptyString
      | t => String c t
      end
  | EmptyString => EmptyString
  end.
Definition trim (s : string) : string := dropTrailing (skipSpaces s).

(** [s.split(',')]: always at least one piece. *)
Fixpoint split_comma (s : string) : list string :=
  match s with
  | String c s' =>
      match split_comma s' with
      | piece :: rest =>
          if Ascii.eqb c "," then EmptyString :: piece :: rest
          else String c piece :: rest
      | [] => [String c EmptyString]
      end
  | EmptyString => [EmptyString]
  end.

End Js.

(** ** script.js: [ColorUtils] *)

Module ColorUtils.
Import Js.

(** [{r, g, b}] and [{h, s, l}] objects. *)
Record rgb := mkRgb { rgb_r : Z; rgb_g : Z; rgb_b : Z }.
Record hsl := mkHsl { hsl_h : Z; hsl_s : Z; hsl_l : Z }.

(** [hexToRgb]: the pattern [/^#?([a-f\d]{2})([a-f\d]{2})([a-f\d]{2})$/i],
    each group read by [parseInt(_, 16)]; [None] is [null]. *)
Definition hexPair (c1 c2 : ascii) : option Z :=
  match hexDigit c1, hexDigit c2 with
  | Some d1, Some d2 => Some (d1 * 16 + d2)
  | _, _ => None
  end.

Definition hexToRgb (hex : string) : option rgb :=
  let body := match hex with String "#" rest => rest | _ => hex end in
  match body with
  | String c1 (String c2 (String c3 (String c4 (String c5 (String c6 EmptyString))))) =>
      match hexPair c1 c2, hexPair c3 c4, hexPair c5 c6 with
      | Some r, Some g, Some b => Some (mkRgb r g b)
      | _, _, _ => None
      end
  | _ => None
  end.

(** [rgbToHex]: every channel clamped, rounded, printed in base 16 and
    padded to two digits. *)
Definition toHex (n : Z) : string :=
  let hex := toString16 (Math_round (Math_max 0 (Math_min 255 (inject_Z n)))) in
  if (String.length hex =? 1)%nat then ("0" ++ hex)%string else hex.

Definition rgbToHex (r g b : Z) : string :=
  ("#" ++ toHex r ++ toHex g ++ toHex b)%string.

(** [rgbToHsl], in two steps: [h], [s] and [l] as they stand at the
    [return], then the rounded object.  [max] is one of the three
    channels, so the last [case] of the [switch] is the remaining
    alternative. *)
Definition rgbToHsl_unrounded (r g b : Z) : Q * Q * Q :=
  let r := (inject_Z r / 255)%Q in
  let g := (inject_Z g / 255)%Q in
  let b := (inject_Z b / 255)%Q in
  let max := Math_max3 r g b in
  let min := Math_min3 r g b in
  let l := ((max + min) / 2)%Q in
  if Qeq_bool max min then (0%Q, 0%Q, l)
  else
    let d := (max - min)%Q in
    let s := if ltb (1 # 2) l then (d / (2 - max - min))%Q
             else (d / (max + min))%Q in
    let h :=
      if Qeq_bool max r then ((g - b) / d + (if ltb g b then 6 else 0))%Q
      else if Qeq_bool max g then ((b - r) / d + 2)%Q
      else ((r - g) / d + 4)%Q in
    ((h / 6)%Q, s, l).

Definition rgbToHsl (r g b : Z) : hsl :=
  let '(h, s, l) := rgbToHsl_unrounded r g b in
  mkHsl (Math_round (h * 360)) (Math_round (s * 100)) (Math_round (l * 100)).

(** [hslToRgb] with its local helper [hue2rgb], in two steps as
    well. *)
Definition hue2rgb (p q t : Q) : Q :=
  let t := if ltb t 0 then (t + 1)%Q else t in
  let t := if ltb 1 t then (t - 1)%Q else t in
  if ltb t (1 / 6) then (p + (q - p) * 6 * t)%Q
  else if ltb t (1 / 2) then q
  else if ltb t (2 / 3) then (p + (q - p) * (2 / 3 - t) * 6)%Q
  else p.

Definition hslToRgb_unrounded (h s l : Q) : Q * Q * Q :=
  let h := (h / 360)%Q in
  let s := (s / 100)%Q in
  let l := (l / 100)%Q in
  if Qeq_bool s 0 then (l, l, l)
  else
    let q := if ltb l (1 # 2) then (l * (1 + s))%Q else (l + s - l * s)%Q in
    let p := (2 * l - q)%Q in
    (hue2rgb p q (h + 1 / 3), hue2rgb p q h, hue2rgb p q (h - 1 / 3)).

Definition hslToRgb (h s l : Q) : rgb :=
  let '(r, g, b) := hslToRgb_unrounded h s l in
  mkRgb (Math_round (r * 255)) (Math_round (g * 255)) (Math_round (b * 255)).

(** [relativeLuminance] and [contrastRatio]; [Math.pow] is the
    parameter [pow]. *)
Section Luminance.
Variable pow : Q -> Q -> Q.

Definition linearize (c : Z) : Q :=
  let c := (inject_Z c / 255)%Q in
  if Qle_bool c (3928 # 100000) then (c / (1292 # 100))%Q
  else pow ((c + (55 # 1000)) / (1055 # 1000))%Q (24 # 10).

Definition relativeLuminance (r g b : Z) : Q :=
  ((2126 # 10000) * linearize r + (7152 # 10000) * linearize g
   + (722 # 10000) * linearize b)%Q.

Definition contrastRatio (rgb1 rgb2 : rgb) : Q :=
  let l1 := relativeLuminance (rgb_r rgb1) (rgb_g rgb1) (rgb_b rgb1) in
  let l2 := relativeLuminance (rgb_r rgb2) (rgb_g rgb2) (rgb_b rgb2) in
  let lighter := Math_max l1 l2 in
  let darker := Math_min l1 l2 in
  ((lighter + (5 # 100)) / (darker + (5 # 100)))%Q.
End Luminance.

(** [generateHarmonies]: the hues of a harmony, then one
    [{hex, rgb, hsl}] object per hue. *)
Record harmony := mkHarmony { hm_hex : string; hm_rgb : rgb; hm_hsl : hsl }.

Definition harmonyHsls (c : hsl) (type : string) : list hsl :=
  let h := hsl_h c in
  let s := hsl_s c in
  let l := hsl_l c in
  if String.eqb type "complementary" then
    [ mkHsl h s l; mkHsl (rem (h + 180) 360) s l ]
  else if String.eqb type "analogous" then
    [ mkHsl (rem (h - 30 + 360) 360) s l;
      mkHsl (rem (h - 15 + 360) 360) s l;
      mkHsl h s l;
      mkHsl (rem (h + 15) 360) s l;
      mkHsl (rem (h + 30) 360) s l ]
  else if String.eqb type "triadic" then
    [ mkHsl h s l;
      mkHsl (rem (h + 120) 360) s l;
      mkHsl (rem (h + 240) 360) s l ]
  else if String.eqb type "tetradic" then
    [ mkHsl h s l;
      mkHsl (rem (h + 90) 360) s l;
      mkHsl (rem (h + 180) 360) s l;
      mkHsl (rem (h + 270) 360) s l ]
  else [].

Definition generateHarmonies (c : hsl) (type : string) : list harmony :=
  map (fun hslColor =>
         let rgb := hslToRgb (inject_Z (hsl_h hslColor)) (inject_Z (hsl_s hslColor))
                      (inject_Z (hsl_l hslColor)) in
         mkHarmony (rgbToHex (rgb_r rgb) (rgb_g rgb) (rgb_b rgb)) rgb hslColor)
      (harmonyHsls c type).

End ColorUtils.

(** ** script.js: [ColorPicker]

    The session keeps [currentColor] (an [{r, g, b}] object) and
    [currentAlpha].  The text fields and the hue slider of the page are
    part of the state, because handlers read them back: a text field
    holds a string, the hue slider (a range input) the integer it
    shows.  The geometry of the colour field and the pointer position
    come with the event.  The throttling of the text handlers only
    delays a call and is not modelled.  [handleHueChange] and
    [handleFieldKeydown] read the S and L fields with a bare
    [parseInt] and so can put [NaN] into the colour; they follow the
    palettes, with a result of their own for that case. *)

Module ColorPicker.
Import Js ColorUtils.

Record State := mkState {
  currentColor : rgb;
  currentAlpha : Q;
  isDragging : bool;
  hueSlider : Z;
  hexInput : string;
  rgbInputs_r : string;
  rgbInputs_g : string;
  rgbInputs_b : string;
  hslInputs_h : string;
  hslInputs_s : string;
  hslInputs_l : string
}.

Definition set_currentColor (c : rgb) (st : State) : State :=
  mkState c (currentAlpha st) (isDragging st) (hueSlider st) (hexInput st)
    (rgbInputs_r st) (rgbInputs_g st) (rgbInputs_b st)
    (hslInputs_h st) (hslInputs_s st) (hslInputs_l st).

Definition set_currentAlpha (a : Q) (st : State) : State :=
  mkState (currentColor st) a (isDragging st) (hueSlider st) (hexInput st)
    (rgbInputs_r st) (rgbInputs_g st) (rgbInputs_b st)
    (hslInputs_h st) (hslInputs_s st) (hslInputs_l st).

Definition set_isDragging (d : bool) (st : State) : State :=
  mkState (currentColor st) (currentAlpha st) d (hueSlider st) (hexInput st)
    (rgbInputs_r st) (rgbInputs_g st) (rgbInputs_b st)
    (hslInputs_h st) (hslInputs_s st) (hslInputs_l st).

Definition set_hueSlider (h : Z) (st : State) : State :=
  mkState (currentColor st) (currentAlpha st) (isDragging st) h (hexInput st)
    (rgbInputs_r st) (rgbInputs_g st) (rgbInputs_b st)
    (hslInputs_h st) (hslInputs_s st) (hslInputs_l st).

Definition set_hexInput (v : string) (st : State) : State :=
  mkState (currentColor st) (currentAlpha st) (isDragging st) (hueSlider st) v
    (rgbInputs_r st) (rgbInputs_g st) (rgbInputs_b st)
    (hslInputs_h st) (hslInputs_s st) (hslInputs_l st).

Definition set_rgbInputs (r g b : string) (st : State) : State :=
  mkState (currentColor st) (currentAlpha st) (isDragging st) (hueSlider st)
    (hexInput st) r g b (hslInputs_h st) (hslInputs_s st) (hslInputs_l st).

Definition set_hslInputs (h s l : string) (st : State) : State :=
  mkState (currentColor st) (currentAlpha st) (isDragging st) (hueSlider st)
    (hexInput st) (rgbInputs_r st) (rgbInputs_g st) (rgbInputs_b st) h s l.

(** What [updateColor] and [updateContrastInfo] hand to the page: the
    hex string, the channels and alpha of the swatch, the HSL view and
    the two contrast ratios with their badges. *)
Inductive wcag := AAA | AA | FAIL.

Record ViewUpdate := mkView {
  view_hex : string;
  view_rgb : rgb;
  view_alpha : Q;
  view_hsl : hsl;
  view_whiteRatio : Q;
  view_blackRatio : Q;
  view_whiteWcag : wcag;
  view_blackWcag : wcag
}.

Record PointerEvent := mkPointer { clientX : Q; clientY : Q }.
Record DOMRect := mkRect { left : Q; top : Q; width : Q; height : Q }.

Section Handlers.
Variable pow : Q -> Q -> Q.

Definition updateWcagBadge (ratio : Q) : wcag :=
  if Qle_bool 7 ratio then AAA
  else if Qle_bool (45 # 10) ratio then AA
  else FAIL.

Definition updateColor (updateHex updateRgb updateHsl : bool) (st : State)
    : State * ViewUpdate :=
  let r := rgb_r (currentColor st) in
  let g := rgb_g (currentColor st) in
  let b := rgb_b (currentColor st) in
  let hex := rgbToHex r g b in
  let hsl := rgbToHsl r g b in
  let st := if updateHex then set_hexInput hex st else st in
  let st := if updateRgb
            then set_rgbInputs (toString r) (toString g) (toString b) st
            else st in
  let st := if updateHsl
            then set_hslInputs (toString (hsl_h hsl)) (toString (hsl_s hsl))
                   (toString (hsl_l hsl)) st
            else st in
  let st := set_hueSlider (hsl_h hsl) st in
  (* updateContrastInfo *)
  let currentRgb := currentColor st in
  let white := mkRgb 255 255 255 in
  let black := mkRgb 0 0 0 in
  let whiteContrast := contrastRatio pow currentRgb white in
  let blackContrast := contrastRatio pow currentRgb black in
  (st, mkView hex (mkRgb r g b) (currentAlpha st) hsl whiteContrast blackContrast
         (updateWcagBadge whiteContrast) (updateWcagBadge blackContrast)).

(** The constructor: the default colour, then [updateColor()]. *)
Definition initial : State :=
  fst (updateColor true true true
         (mkState (mkRgb 79 70 229) 1 false 0 EmptyString EmptyString EmptyString
              EmptyString EmptyString EmptyString EmptyString)).

(** [rect] is the bounding rectangle of the colour field, of
    positive size; [e] carries the coordinates of the mouse or of
    the first touch. *)
Definition handleFieldDrag (rect : DOMRect) (e : PointerEvent) (st : State)
    : State * option ViewUpdate :=
  if negb (isDragging st) then (st, None)
  else
    let x := Math_max 0 (Math_min (width rect) (clientX e - left rect)) in
    let y := Math_max 0 (Math_min (height rect) (clientY e - top rect)) in
    let saturation := Math_round ((x / width rect) * 100) in
    let lightness := Math_round (100 - (y / height rect) * 100) in
    let hue := hueSlider st in
    let rgb := hslToRgb (inject_Z hue) (inject_Z saturation) (inject_Z lightness) in
    let '(st, v) := updateColor true true true (set_currentColor rgb st) in
    (st, Some v).

Definition startFieldDrag (rect : DOMRect) (e : PointerEvent) (st : State)
    : State * option ViewUpdate :=
  handleFieldDrag rect e (set_isDragging true st).

Definition stopFieldDrag (st : State) : State := set_isDragging false st.

(** [parseFloat] of the alpha slider is the number [v] it shows. *)
Definition handleAlphaChange (v : Q) (st : State) : State * option ViewUpdate :=
  let '(st, view) := updateColor true true true (set_currentAlpha v st) in
  (st, Some view).

Definition handleHexChange (st : State) : State * option ViewUpdate :=
  let hex := hexInput st in
  match hexToRgb hex with
  | Some rgb =>
      let '(st, v) := updateColor false true true (set_currentColor rgb st) in
      (st, Some v)
  | None => (st, None)
  end.

Definition handleRgbChange (st : State) : State * option ViewUpdate :=
  let r := orZero (parseInt (rgbInputs_r st)) in
  let g := orZero (parseInt (rgbInputs_g st)) in
  let b := orZero (parseInt (rgbInputs_b st)) in
  let '(st, v) := updateColor true false true (set_currentColor (mkRgb r g b) st) in
  (st, Some v).

Definition handleHslChange (st : State) : State * option ViewUpdate :=
  let h := orZero (parseInt (hslInputs_h st)) in
  let s := orZero (parseInt (hslInputs_s st)) in
  let l := orZero (parseInt (hslInputs_l st)) in
  let rgb := hslToRgb (inject_Z h) (inject_Z s) (inject_Z l) in
  let '(st, v) := updateColor true true false (set_currentColor rgb st) in
  (st, Some v).

(** The click handler of a harmony swatch and of a palette colour,
    and the eye dropper's result: all three set the colour from a
    hex string. *)
Definition pickHex (hex : string) (st : State) : State * option ViewUpdate :=
  match hexToRgb hex with
  | Some rgb =>
      let '(st, v) := updateColor true true true (set_currentColor rgb st) in
      (st, Some v)
  | None => (st, None)
  end.

(** The events of the page, each with what the browser did to the
    page before it called the handler. *)
Inductive channel := ChanR | ChanG | ChanB.
Inductive component := CompH | CompS | CompL.

Inductive event :=
| MouseDown (rect : DOMRect) (e : PointerEvent)
| MouseMove (rect : DOMRect) (e : PointerEvent)
| MouseUp
| AlphaInput (v : Q)
| HexTyped (text : string)
| RgbTyped (c : channel) (text : string)
| HslTyped (c : component) (text : string)
| SwatchClick (hex : string)
| PaletteColorClick (hex : string)
| EyeDropperResult (sRGBHex : string).

Definition typeRgb (c : channel) (text : string) (st : State) : State :=
  match c with
  | ChanR => set_rgbInputs text (rgbInputs_g st) (rgbInputs_b st) st
  | ChanG => set_rgbInputs (rgbInputs_r st) text (rgbInputs_b st) st
  | ChanB => set_rgbInputs (rgbInputs_r st) (rgbInputs_g st) text st
  end.

Definition typeHsl (c : component) (text : string) (st : State) : State :=
  match c with
  | CompH => set_hslInputs text (hslInputs_s st) (hslInputs_l st) st
  | CompS => set_hslInputs (hslInputs_h st) text (hslInputs_l st) st
  | CompL => set_hslInputs (hslInputs_h st) (hslInputs_s st) text st
  end.

Definition step (st : State) (ev : event) : State * option ViewUpdate :=
  match ev with
  | MouseDown rect e => startFieldDrag rect e st
  | MouseMove rect e => handleFieldDrag rect e st
  | MouseUp => (stopFieldDrag st, None)
  | AlphaInput v => handleAlphaChange v st
  | HexTyped text => handleHexChange (set_hexInput text st)
  | RgbTyped c text => handleRgbChange (typeRgb c text st)
  | HslTyped c text => handleHslChange (typeHsl c text st)
  | SwatchClick hex => pickHex hex st
  | PaletteColorClick hex => pickHex hex st
  | EyeDropperResult hex => pickHex hex st
  end.

Definition run (st : State) (evs : list event) : State :=
  fold_left (fun st ev => fst (step st ev)) evs st.
End Handlers.

(** Palettes are what [JSON.parse] returns. *)
#[local] Set Warnings "-register-all".
Inductive json :=
| JNull
| JBool (b : bool)
| JNum (n : Q)
| JStr (s : string)
| JArr (items : list json)
| JObj (fields : list (string * json)).

Fixpoint field (name : string) (fields : list (string * json)) : option json :=
  match fields with
  | (k, v) :: rest => if String.eqb k name then Some v else field name rest
  | [] => None
  end.

(** [p.id]; [None] is [undefined]. *)
Definition paletteId (p : json) : option json :=
  match p with
  | JObj fields => field "id" fields
  | _ => None
  end.



(** *** The hue slider, the keyboard and the harmony buttons *)

Section Inputs.
Variable pow : Q -> Q -> Q.







End Inputs.

(** *** Saving and deleting palettes, and the theme *)



(** [savedPalettes.findIndex(p => p.id === id)] with [id] a string.
    Reading [id] of [null] throws, which ends the handler as a palette
    that is not found does: both are [None]. *)
Definition hasId (id : string) (p : json) : bool :=
  match paletteId p with
  | Some (JStr s) => String.eqb s id
  | _ => false
  end.

Fixpoint findIndexById (id : string) (savedPalettes : list json) : option nat :=
  match savedPalettes with
  | [] => None
  | JNull :: _ => None
  | p :: rest =>
      if hasId id p then Some 0%nat else option_map S (findIndexById id rest)
  end.

(** [deletePalette]: the array after [splice(paletteIndex, 1)] and the
    palette the toast names. *)
Definition deletePalette (id : string) (savedPalettes : list json)
    : list json * option json :=
  match findIndexById id savedPalettes with
  | Some paletteIndex =>
      (firstn paletteIndex savedPalettes ++ skipn (S paletteIndex) savedPalettes,
       nth_error savedPalettes paletteIndex)
  | None => (savedPalettes, None)
  end.

(** The theme: the [data-theme] attribute of the document, the icon of
    the toggle and the entry [colorPickerTheme] of the local storage;
    [None] is an absent attribute or entry. *)
Inductive icon := Sun | Moon.

Record Theme := mkTheme {
  dataTheme : option string;
  themeIcon : icon;
  storedTheme : option string
}.

Definition setTheme (theme : string) (t : Theme) : Theme :=
  mkTheme (Some theme) (if String.eqb theme "dark" then Sun else Moon) (Some theme).

Definition toggleTheme (t : Theme) : Theme :=
  let current := dataTheme t in
  let newTheme :=
    match current with
    | Some c => if String.eqb c "dark" then "light" else "dark"
    | None => "dark"
    end%string in
  setTheme newTheme t.

(** [!text] on what [getItem] returns. *)
Definition noEntry (v : option string) : bool :=
  match v with
  | None | Some EmptyString => true
  | Some _ => false
  end.

Definition systemTheme (prefersDark : bool) : string :=
  (if prefersDark then "dark" else "light")%string.

Definition setupTheme (prefersDark : bool) (t : Theme) : Theme :=
  let saved := storedTheme t in
  let theme :=
    match saved with
    | None | Some EmptyString => systemTheme prefersDark
    | Some s => s
    end in
  setTheme theme t.

(** The listener [setupTheme] installs for a change of the system's
    colour scheme. *)
Definition systemThemeChanged (matches : bool) (t : Theme) : Theme :=
  if noEntry (storedTheme t) then setTheme (systemTheme matches) t else t.

Inductive themeEvent :=
| ToggleClick
| SystemChange (matches : bool).

Definition themeStep (t : Theme) (ev : themeEvent) : Theme :=
  match ev with
  | ToggleClick => toggleTheme t
  | SystemChange matches => systemThemeChanged matches t
  end.

End ColorPicker.

(** ** The unnamed source file: the HSL-backed [ColorPicker]

    This picker stores [{h, s, l, a}] and derives RGB on demand.  Its
    methods [hslToRgb], [hexToRgb], [rgbToHsl], [getLuminance] and
    [getContrastRatio] have the bodies of their [ColorUtils]
    counterparts and return arrays where those return objects; the
    model uses the [ColorUtils] functions and the [rgb] record for the
    three-element arrays.  [parseFloat] is a parameter. *)

Module Part000.
Import Js.

Definition rgb := ColorUtils.rgb.
Definition hslToRgb := ColorUtils.hslToRgb.
Definition hexToRgb := ColorUtils.hexToRgb.
Definition rgbToHsl := ColorUtils.rgbToHsl.
Definition getContrastRatio := ColorUtils.contrastRatio.

(** [rgbToHex]: no clamping here. *)
Definition byteHex (x : Z) : string :=
  let hex := toString16 x in
  if (String.length hex =? 1)%nat then ("0" ++ hex)%string else hex.

Definition rgbToHex (r g b : Z) : string :=
  ("#" ++ byteHex r ++ byteHex g ++ byteHex b)%string.

Record Color := mkColor { h : Q; s : Q; l : Q; a : Q }.

Record State := mkState { currentColor : Color; isDragging : bool }.

Definition initial : State := mkState (mkColor 0 70 40 1) false.

Record MouseEvent := mkMouse { clientX : Q; clientY : Q }.
Record DOMRect := mkRect { left : Q; top : Q; width : Q; height : Q }.

(** [Math.max(0, Math.min(1, (e.clientX - rect.left) / rect.width))]. *)
Definition fractionX (rect : DOMRect) (e : MouseEvent) : Q :=
  Math_max 0 (Math_min 1 ((clientX e - left rect) / width rect)).
Definition fractionY (rect : DOMRect) (e : MouseEvent) : Q :=
  Math_max 0 (Math_min 1 ((clientY e - top rect) / height rect)).

Definition updateColorFromArea (rect : DOMRect) (e : MouseEvent) (st : State) : State :=
  let x := fractionX rect e in
  let y := fractionY rect e in
  let c := currentColor st in
  mkState (mkColor (h c) (x * 100) ((1 - y) * 100) (a c)) (isDragging st).

Definition updateHueFromSlider (rect : DOMRect) (e : MouseEvent) (st : State) : State :=
  let x := fractionX rect e in
  let c := currentColor st in
  mkState (mkColor (x * 360) (s c) (l c) (a c)) (isDragging st).

Definition updateOpacityFromSlider (rect : DOMRect) (e : MouseEvent) (st : State)
    : State :=
  let x := fractionX rect e in
  let c := currentColor st in
  mkState (mkColor (h c) (s c) (l c) x) (isDragging st).

Definition set_hsl (v : ColorUtils.hsl) (st : State) : State :=
  mkState (mkColor (inject_Z (ColorUtils.hsl_h v)) (inject_Z (ColorUtils.hsl_s v))
             (inject_Z (ColorUtils.hsl_l v)) (a (currentColor st)))
          (isDragging st).

Definition handleHexInput (text : string) (st : State) : State :=
  match hexToRgb text with
  | Some c =>
      set_hsl (rgbToHsl (ColorUtils.rgb_r c) (ColorUtils.rgb_g c) (ColorUtils.rgb_b c)) st
  | None => st
  end.

(** The check of [handleRgbInput]:
    [!isNaN(v) && v >= 0 && v <= 255] on every value. *)
Definition validChannel (v : option Z) : bool :=
  match v with
  | Some n => (0 <=? n) && (n <=? 255)
  | None => false
  end.

Definition handleRgbInput (text : string) (st : State) : State :=
  let values := map (fun v => parseInt (trim v)) (split_comma text) in
  if (List.length values =? 3)%nat && forallb validChannel values then
    match values with
    | [Some r; Some g; Some b] => set_hsl (rgbToHsl r g b) st
    | _ => st
    end
  else st.

(** [!isNaN(v)]. *)
Definition isNumber (v : option Q) : bool :=
  match v with Some _ => true | None => false end.

Section Handlers.
Variable parseFloat : string -> option Q.
Variable pow : Q -> Q -> Q.

(** [handleHslInput]; both branches of its test for a percent sign call
    [parseFloat] on the trimmed piece. *)
Definition handleHslInput (text : string) (st : State) : State :=
  let values := map (fun v => parseFloat (trim v)) (split_comma text) in
  if (List.length values =? 3)%nat && forallb isNumber values then
    match values with
    | [Some v0; Some v1; Some v2] =>
        mkState (mkColor v0 v1 v2 (a (currentColor st))) (isDragging st)
    | _ => st
    end
  else st.

(** The click on a harmony or palette colour:
    [{...color, a: this.currentColor.a}]. *)
Definition selectColor (c : Q * Q * Q) (st : State) : State :=
  let '(ch, cs, cl) := c in
  mkState (mkColor ch cs cl (a (currentColor st))) (isDragging st).

Definition pickFromScreen (sRGBHex : string) (st : State) : State :=
  handleHexInput sRGBHex st.

(** What [updateDisplays] writes: the hex and RGB fields, the rounded
    HSL field and the [hsla] preview. *)
Record Displays := mkDisplays {
  disp_hex : string;
  disp_rgb : rgb;
  disp_hsl : Z * Z * Z;
  disp_preview : Color
}.

Definition updateDisplays (st : State) : Displays :=
  let c := currentColor st in
  let rgb := hslToRgb (h c) (s c) (l c) in
  let hex := rgbToHex (ColorUtils.rgb_r rgb) (ColorUtils.rgb_g rgb)
               (ColorUtils.rgb_b rgb) in
  mkDisplays hex rgb (Math_round (h c), Math_round (s c), Math_round (l c)) c.

(** [updateContrastTests]: the ratios against black and white. *)
Definition updateContrastTests (st : State) : Q * Q :=
  let c := currentColor st in
  let rgb := hslToRgb (h c) (s c) (l c) in
  (getContrastRatio pow rgb (ColorUtils.mkRgb 0 0 0),
   getContrastRatio pow rgb (ColorUtils.mkRgb 255 255 255)).

Inductive event :=
| AreaMouseDown (rect : DOMRect) (e : MouseEvent)
| AreaMouseMove (rect : DOMRect) (e : MouseEvent)
| HueMouseDown (rect : DOMRect) (e : MouseEvent)
| HueMouseMove (rect : DOMRect) (e : MouseEvent)
| OpacityMouseDown (rect : DOMRect) (e : MouseEvent)
| OpacityMouseMove (rect : DOMRect) (e : MouseEvent)
| MouseUp
| HexTyped (text : string)
| RgbTyped (text : string)
| HslTyped (text : string)
| ColorClick (c : Q * Q * Q)
| ScreenPicked (sRGBHex : string).

Definition startDrag (st : State) : State := mkState (currentColor st) true.

Definition step (st : State) (ev : event) : State :=
  match ev with
  | AreaMouseDown rect e => updateColorFromArea rect e (startDrag st)
  | AreaMouseMove rect e =>
      if isDragging st then updateColorFromArea rect e st else st
  | HueMouseDown rect e => updateHueFromSlider rect e (startDrag st)
  | HueMouseMove rect e =>
      if isDragging st then updateHueFromSlider rect e st else st
  | OpacityMouseDown rect e => updateOpacityFromSlider rect e (startDrag st)
  | OpacityMouseMove rect e =>
      if isDragging st then updateOpacityFromSlider rect e st else st
  | MouseUp => mkState (currentColor st) false
  | HexTyped text => handleHexInput text st
  | RgbTyped text => handleRgbInput text st
  | HslTyped text => handleHslInput text st
  | ColorClick c => selectColor c st
  | ScreenPicked hex => pickFromScreen hex st
  end.

Definition run (st : State) (evs : list event) : State :=
  fold_left step evs st.
End Handlers.

(** [generateColorHarmony]: [{h, s, l}] objects as triples. *)
Definition generateColorHarmony (type : string) (st : State) : list (Q * Q * Q) :=
  let baseHue := h (currentColor st) in
  let baseSat := s (currentColor st) in
  let baseLum := l (currentColor st) in
  if String.eqb type "complementary" then
    [ (baseHue, baseSat, baseLum);
      (Qrem (baseHue + 180) 360, baseSat, baseLum) ]
  else if String.eqb type "analogous" then
    [ (Qrem (baseHue - 30 + 360) 360, baseSat, baseLum);
      (baseHue, baseSat, baseLum);
      (Qrem (baseHue + 30) 360, baseSat, baseLum) ]
  else if String.eqb type "triadic" then
    [ (baseHue, baseSat, baseLum);
      (Qrem (baseHue + 120) 360, baseSat, baseLum);
      (Qrem (baseHue + 240) 360, baseSat, baseLum) ]
  else if String.eqb type "tetradic" then
    [ (baseHue, baseSat, baseLum);
      (Qrem (baseHue + 90) 360, baseSat, baseLum);
      (Qrem (baseHue + 180) 360, baseSat, baseLum);
      (Qrem (baseHue + 270) 360, baseSat, baseLum) ]
  else [].


(** The label [formatRatio] appends to the ratio. *)
Inductive grade := GradeAAA | GradeAA | GradeAALarge | GradeFail.

Definition formatRatio (ratio : Q) : grade :=
  if Qle_bool 7 ratio then GradeAAA
  else if Qle_bool (45 # 10) ratio then GradeAA
  else if Qle_bool 3 ratio then GradeAALarge
  else GradeFail.

End Part000.

(** * Vocabulary of the statements *)

Import Js ColorUtils ColorPicker.

(** A channel value that fits a byte, and a colour of three such. *)
Definition byte (n : Z) : Prop := 0 <= n <= 255.

Definition bytes (c : rgb) : Prop := byte (rgb_r c) /\ byte (rgb_g c) /\ byte (rgb_b c).

(** The integers [lo, lo + 1, ...], [n] of them. *)
Definition interval (lo : Z) (n : nat) : list Z :=
  map (fun i => lo + Z.of_nat i) (seq 0 n).

(** A channel as the fraction the conversions work with. *)
Definition chan (c : Z) : Q := (inject_Z c / 255)%Q.

(** The hue reduced to [[0, 360)]. *)
Definition hueMod360 (h : Q) : Q := (h - 360 * inject_Z (Qfloor (h / 360)))%Q.

(** [hue2rgb p q t] interpolates between [p] and [q] along a fixed
    profile of [t]. *)
Definition ramp (t : Q) : Q := hue2rgb 0 1 t.

(** The pieces of [rgbToHsl] and [hslToRgb] by name: saturation and
    lightness from the extreme channels [M] and [m], the sextant
    coordinate of the hue, and the [q] and [p] of [hslToRgb]. *)
Definition satOf (M m : Q) : Q :=
  if Qeq_bool M m then 0%Q
  else if ltb (1 # 2) ((M + m) / 2) then ((M - m) / (2 - M - m))%Q
  else ((M - m) / (M + m))%Q.

Definition lightOf (M m : Q) : Q := ((M + m) / 2)%Q.

Definition sextant (R G B M m : Q) : Q :=
  if Qeq_bool M R then ((G - B) / (M - m) + (if ltb G B then 6 else 0))%Q
  else if Qeq_bool M G then ((B - R) / (M - m) + 2)%Q
  else ((R - G) / (M - m) + 4)%Q.

Definition qOf (s l : Q) : Q :=
  if ltb l (1 # 2) then (l * (1 + s))%Q else (l + s - l * s)%Q.

Definition pOf (s l : Q) : Q := (2 * l - qOf s l)%Q.


(** [toHex n] is two hexadecimal digits that read back as [n]. *)
Definition toHex_reads_back (n : Z) : bool :=
  match toHex n with
  | String c1 (String c2 EmptyString) =>
      match hexPair c1 c2 with
      | Some m => m =? n
      | None => false
      end
  | _ => false
  end.

(** The round trip of the session: [rgbToHsl], then [hslToRgb] on the
    rounded view. *)
Definition roundTrip (r g b : Z) : rgb :=
  let c := rgbToHsl r g b in
  hslToRgb (inject_Z (hsl_h c)) (inject_Z (hsl_s c)) (inject_Z (hsl_l c)).

Definition within (tol : Z) (c : rgb) (r g b : Z) : Prop :=
  Z.abs (rgb_r c - r) <= tol /\ Z.abs (rgb_g c - g) <= tol /\ Z.abs (rgb_b c - b) <= tol.

Definition grey_within_1 (v : Z) : bool :=
  let c := roundTrip v v v in
  (Z.abs (rgb_r c - v) <=? 1) && (Z.abs (rgb_g c - v) <=? 1)
  && (Z.abs (rgb_b c - v) <=? 1).

(** The offsets of the harmony kinds: [script.js] uses five points for
    [analogous], the HSL-backed picker three. *)
Definition harmonyOffsets (type : string) : list Z :=
  if String.eqb type "complementary" then [0; 180]
  else if String.eqb type "analogous" then [-30; -15; 0; 15; 30]
  else if String.eqb type "triadic" then [0; 120; 240]
  else if String.eqb type "tetradic" then [0; 90; 180; 270]
  else [].

Definition harmonyOffsets3 (type : string) : list Z :=
  if String.eqb type "analogous" then [-30; 0; 30] else harmonyOffsets type.

Definition turned (c : hsl) (off : Z) : hsl :=
  mkHsl ((hsl_h c + off) mod 360) (hsl_s c) (hsl_l c).

Definition turnedQ (c : Part000.Color) (member : Q * Q * Q) (off : Z) : Prop :=
  let '(mh, ms, ml) := member in
  (mh == hueMod360 (Part000.h c + inject_Z off))%Q /\ ms = Part000.s c /\ ml = Part000.l c.






(** A colour field of 200 by 200 pixels at the origin. *)
Definition field200 : DOMRect := mkRect 0 0 200 200.

(** The events of the HSL-backed picker that bring no hue of their own. *)
Definition bringsNoHue (ev : Part000.event) : bool :=
  match ev with
  | Part000.AreaMouseDown _ _ | Part000.AreaMouseMove _ _
  | Part000.OpacityMouseDown _ _ | Part000.OpacityMouseMove _ _
  | Part000.MouseUp => true
  | _ => false
  end.


Definition palette (id name : string) : json :=
  JObj [ ("id", JStr id); ("name", JStr name);
         ("colors", JArr (map JStr ["#4f46e5"]));
         ("created", JStr "2024-01-01T00:00:00.000Z") ]%string.

(** ** Vocabulary of the further statements *)

(** An integer clamped to a byte, and a colour of three such. *)
Definition clampByte (n : Z) : Z := Z.max 0 (Z.min 255 n).

Definition clampRgb (c : rgb) : rgb :=
  mkRgb (clampByte (rgb_r c)) (clampByte (rgb_g c)) (clampByte (rgb_b c)).

(** The ASCII letters in upper case. *)
Definition upperCase (c : ascii) : ascii :=
  let n := nat_of_ascii c in
  if ((97 <=? n) && (n <=? 122))%nat then ascii_of_nat (n - 32) else c.

Fixpoint toUpperCase (s : string) : string :=
  match s with
  | String c s' => String (upperCase c) (toUpperCase s')
  | EmptyString => EmptyString
  end.

(** What the statements on contrast need of [Math.pow]: with the
    exponent 2.4 it maps the unit interval into itself and 1 to 1. *)
Definition powOnUnit (pow : Q -> Q -> Q) : Prop :=
  (forall x, 0 <= x <= 1 -> 0 <= pow x (24 # 10) <= 1)%Q /\
  (forall x, x == 1 -> pow x (24 # 10) == 1)%Q.

Definition white : rgb := mkRgb 255 255 255.
Definition black : rgb := mkRgb 0 0 0.

Definition luminanceOf (pow : Q -> Q -> Q) (c : rgb) : Q :=
  relativeLuminance pow (rgb_r c) (rgb_g c) (rgb_b c).






Definition isToggle (ev : themeEvent) : bool :=
  match ev with ToggleClick => true | SystemChange _ => false end.

(** A colour of the HSL-backed picker within its ranges, and the
    events that bring nothing from outside them. *)
Definition inGamut (c : Part000.Color) : Prop :=
  (0 <= Part000.h c <= 360 /\ 0 <= Part000.s c <= 100
   /\ 0 <= Part000.l c <= 100 /\ 0 <= Part000.a c <= 1)%Q.

Definition inGamutEvent (parseFloat : string -> option Q) (ev : Part000.event) : Prop :=
  match ev with
  | Part000.AreaMouseDown rect _ | Part000.AreaMouseMove rect _ =>
      (0 < Part000.width rect /\ 0 < Part000.height rect)%Q
  | Part000.HueMouseDown rect _ | Part000.HueMouseMove rect _
  | Part000.OpacityMouseDown rect _ | Part000.OpacityMouseMove rect _ =>
      (0 < Part000.width rect)%Q
  | Part000.HslTyped text =>
      forall v0 v1 v2,
        map (fun v => parseFloat (trim v)) (split_comma text) = [Some v0; Some v1; Some v2] ->
        (0 <= v0 <= 360 /\ 0 <= v1 <= 100 /\ 0 <= v2 <= 100)%Q
  | Part000.ColorClick (ch, cs, cl) =>
      (0 <= ch <= 360 /\ 0 <= cs <= 100 /\ 0 <= cl <= 100)%Q
  | _ => True
  end.

Definition area100 : Part000.DOMRect := Part000.mkRect 0 0 100 100.

Definition sampleEvents : list Part000.event :=
  [ Part000.HueMouseDown area100 (Part000.mkMouse 250 5);
    Part000.AreaMouseMove area100 (Part000.mkMouse 30 (-4));
    Part000.MouseUp;
    Part000.RgbTyped "12, 200, 7";
    Part000.ColorClick (300, 20, 80)%Q ].

(** On a byte the two ways of printing a channel agree. *)
Definition byteHex_agrees (n : Z) : bool := String.eqb (Part000.byteHex n) (toHex n).

(** The grades below AA. *)
Definition belowAA (g : Part000.grade) : bool :=
  match g with Part000.GradeAALarge | Part000.GradeFail => true | _ => false end.

(** * Proofs *)

(** ** Auxiliary facts *)

Lemma interval_In (lo : Z) (n : nat) (z : Z) :
  lo <= z < lo + Z.of_nat n -> In z (interval lo n).
Proof.
  intros Hz. unfold interval. apply in_map_iff.
  exists (Z.to_nat (z - lo)). split.
  - rewrite Z2Nat.id by lia. lia.
  - apply in_seq. lia.
Qed.

Lemma interval_forallb (f : Z -> bool) (lo : Z) (n : nat) :
  forallb f (interval lo n) = true ->
  forall z, lo <= z < lo + Z.of_nat n -> f z = true.
Proof.
  intros Hall z Hz. rewrite forallb_forall in Hall.
  apply Hall, interval_In, Hz.
Qed.

(** *** Hex strings *)

Lemma toHex_pair (n : Z) :
  byte n ->
  exists c1 c2, toHex n = String c1 (String c2 EmptyString) /\ hexPair c1 c2 = Some n.
Proof.
  intros Hn.
  assert (H : toHex_reads_back n = true).
  { apply (interval_forallb toHex_reads_back 0 256); [ vm_compute; reflexivity | ].
    unfold byte in Hn. lia. }
  unfold toHex_reads_back in H.
  destruct (toHex n) as [ | c1 [ | c2 [ | ] ] ]; try discriminate.
  destruct (hexPair c1 c2) as [ m | ] eqn:Hp; try discriminate.
  apply Z.eqb_eq in H. subst m. exists c1, c2. split; [ reflexivity | exact Hp ].
Qed.

Lemma hex_of_bytes_reads_back (c : rgb) :
  bytes c -> hexToRgb (rgbToHex (rgb_r c) (rgb_g c) (rgb_b c)) = Some c.
Proof.
  destruct c as [r g b]. intros (Hr & Hg & Hb). cbn [rgb_r rgb_g rgb_b] in *.
  destruct (toHex_pair r Hr) as (r1 & r2 & Er & Pr).
  destruct (toHex_pair g Hg) as (g1 & g2 & Eg & Pg).
  destruct (toHex_pair b Hb) as (b1 & b2 & Eb & Pb).
  unfold rgbToHex. rewrite Er, Eg, Eb. cbn [append].
  unfold hexToRgb. rewrite Pr, Pg, Pb. reflexivity.
Qed.

(** *** Comparisons and rounding *)

Lemma ltb_true (x y : Q) : ltb x y = true <-> (x < y)%Q.
Proof.
  unfold ltb. rewrite negb_true_iff. split.
  - intros H. apply Qnot_le_lt. intros Hle.
    apply Qle_bool_iff in Hle. congruence.
  - intros H. destruct (Qle_bool y x) eqn:E; [ | reflexivity ].
    apply Qle_bool_iff in E. exfalso. apply (Qlt_not_le _ _ H E).
Qed.

Lemma ltb_false (x y : Q) : ltb x y = false <-> (y <= x)%Q.
Proof.
  unfold ltb. rewrite negb_false_iff. apply Qle_bool_iff.
Qed.

(** Split on every comparison of the goal, keeping the fact. *)
Ltac split_ltb :=
  repeat match goal with
         | |- context [ ltb ?x ?y ] =>
             let E := fresh "E" in
             destruct (ltb x y) eqn:E;
             [ apply ltb_true in E | apply ltb_false in E ]
         | H : context [ ltb ?x ?y ] |- _ =>
             let E := fresh "E" in
             destruct (ltb x y) eqn:E;
             [ apply ltb_true in E | apply ltb_false in E ]
         end.

Lemma Math_round_comp (x y : Q) : (x == y)%Q -> Math_round x = Math_round y.
Proof.
  intros H. unfold Math_round. apply Qfloor_comp. rewrite H. reflexivity.
Qed.

(** Quotients of literals as fractions, for [lra]. *)
Ltac fractions :=
  change (1 / 6)%Q with (1 # 6)%Q in *;
  change (1 / 2)%Q with (1 # 2)%Q in *;
  change (1 / 3)%Q with (1 # 3)%Q in *;
  change (2 / 3)%Q with (2 # 3)%Q in *.

(** *** The hue helper *)





(** *** The ramp of [hue2rgb] *)

Lemma hue2rgb_affine (p q t : Q) : (hue2rgb p q t == p + (q - p) * ramp t)%Q.
Proof.
  unfold ramp, hue2rgb. split_ltb; ring.
Qed.

Lemma ramp_range (t : Q) : (-1 <= t <= 2)%Q -> (0 <= ramp t <= 1)%Q.
Proof.
  intros H. unfold ramp, hue2rgb. split_ltb; fractions; lra.
Qed.


(** *** Extreme channels *)

Lemma Qle_bool_false (x y : Q) : Qle_bool x y = false -> (y < x)%Q.
Proof.
  intros H. apply Qnot_le_lt. intros Hle. apply Qle_bool_iff in Hle. congruence.
Qed.

Ltac split_qle :=
  repeat match goal with
         | |- context [ Qle_bool ?x ?y ] =>
             let E := fresh "E" in
             destruct (Qle_bool x y) eqn:E;
             [ apply Qle_bool_iff in E | apply Qle_bool_false in E ]
         | H : context [ Qle_bool ?x ?y ] |- _ =>
             let E := fresh "E" in
             destruct (Qle_bool x y) eqn:E;
             [ apply Qle_bool_iff in E | apply Qle_bool_false in E ]
         end.

Lemma Math_max3_spec (x y z : Q) :
  let M := Math_max3 x y z in
  (x <= M /\ y <= M /\ z <= M /\ (M == x \/ M == y \/ M == z))%Q.
Proof.
  cbv zeta. unfold Math_max3, Math_max. split_qle; repeat split; try lra;
    first [ left; reflexivity | right; left; reflexivity | right; right; reflexivity ].
Qed.

Lemma Math_min3_spec (x y z : Q) :
  let m := Math_min3 x y z in
  (m <= x /\ m <= y /\ m <= z /\ (m == x \/ m == y \/ m == z))%Q.
Proof.
  cbv zeta. unfold Math_min3, Math_min. split_qle; repeat split; try lra;
    first [ left; reflexivity | right; left; reflexivity | right; right; reflexivity ].
Qed.

(** *** The hue gives the channels back

    Before any rounding, [hue2rgb] applied to the hue of a chromatic
    colour returns its three channels, the extremes playing the roles
    of [p] and [q]. *)
Section HueInverse.
Variables R G B M m : Q.
Hypothesis HR : (m <= R <= M)%Q.
Hypothesis HG : (m <= G <= M)%Q.
Hypothesis HB : (m <= B <= M)%Q.
Hypothesis Hmax : (M == R \/ M == G \/ M == B)%Q.
Hypothesis Hmin : (m == R \/ m == G \/ m == B)%Q.
Hypothesis Hne : ~ (M == m)%Q.

Lemma chroma_nonzero : ~ (M - m == 0)%Q.
Proof. intros H. apply Hne. lra. Qed.

Lemma sextant_cases :
  exists u : Q,
    (u * (M - m) == G - B /\ M == R /\ B <= G /\ sextant R G B M m == u)%Q
    \/ (u * (M - m) == G - B /\ M == R /\ G < B /\ sextant R G B M m == u + 6)%Q
    \/ (u * (M - m) == B - R /\ M == G /\ sextant R G B M m == u + 2)%Q
    \/ (u * (M - m) == R - G /\ M == B /\ sextant R G B M m == u + 4)%Q.
Proof.
  unfold sextant.
  destruct (Qeq_bool M R) eqn:ER.
  - apply Qeq_bool_iff in ER. exists ((G - B) / (M - m))%Q.
    destruct (ltb G B) eqn:EGB.
    + apply ltb_true in EGB. right; left. repeat split; try assumption; try reflexivity.
      field. exact chroma_nonzero.
    + apply ltb_false in EGB. left. repeat split; try assumption.
      * field. exact chroma_nonzero.
      * ring.
  - destruct (Qeq_bool M G) eqn:EG.
    + apply Qeq_bool_iff in EG. exists ((B - R) / (M - m))%Q.
      right; right; left. repeat split; try assumption; try reflexivity.
      field. exact chroma_nonzero.
    + apply Qeq_bool_neq in ER. apply Qeq_bool_neq in EG.
      exists ((R - G) / (M - m))%Q.
      right; right; right. repeat split; try reflexivity.
      * field. exact chroma_nonzero.
      * destruct Hmax as [H | [H | H]]; [ contradiction | contradiction | exact H ].
Qed.

Lemma sextant_range : (0 <= sextant R G B M m / 6 < 1)%Q.
Proof.
  destruct sextant_cases as [u Hu].
  assert (Hd : (0 < M - m)%Q) by lra.
  assert (Hs : (sextant R G B M m == 6 * (sextant R G B M m / 6))%Q) by field.
  destruct Hu as [(Hu & HM & Hc & Hs') | [(Hu & HM & Hc & Hs') | [(Hu & HM & Hs') | (Hu & HM & Hs')]]];
    nra.
Qed.




End HueInverse.

(** *** Saturation and lightness from the extreme channels *)


(** *** Both conversions in terms of extremes and ramp *)

Lemma chan_scaled (c : Z) : (chan c * 255 == inject_Z c)%Q.
Proof. unfold chan. field. Qed.


Lemma rgbToHsl_unrounded_shape (r g b : Z) :
  let M := Math_max3 (chan r) (chan g) (chan b) in
  let m := Math_min3 (chan r) (chan g) (chan b) in
  rgbToHsl_unrounded r g b =
    ((if Qeq_bool M m then 0%Q else (sextant (chan r) (chan g) (chan b) M m / 6)%Q),
     satOf M m, lightOf M m).
Proof.
  cbv zeta. unfold rgbToHsl_unrounded, satOf, lightOf, sextant, chan.
  destruct (Qeq_bool _ _); reflexivity.
Qed.

Lemma hslToRgb_unrounded_shape (h s l : Q) :
  let s1 := (s / 100)%Q in
  let l1 := (l / 100)%Q in
  hslToRgb_unrounded h s l =
    if Qeq_bool s1 0 then (l1, l1, l1)
    else (hue2rgb (pOf s1 l1) (qOf s1 l1) (h / 360 + 1 / 3),
          hue2rgb (pOf s1 l1) (qOf s1 l1) (h / 360),
          hue2rgb (pOf s1 l1) (qOf s1 l1) (h / 360 - 1 / 3)).
Proof. reflexivity. Qed.




(** *** Rounding *)

Lemma Math_round_near (x : Q) :
  (inject_Z (Math_round x) - (1 # 2) <= x < inject_Z (Math_round x) + (1 # 2))%Q.
Proof.
  unfold Math_round.
  pose proof (Qfloor_le (x + (1 # 2))) as H1.
  pose proof (Qlt_floor (x + (1 # 2))) as H2.
  rewrite inject_Z_plus in H2. change (inject_Z 1) with 1%Q in H2. lra.
Qed.






(** ** The colour model *)




(** The bound is reached: the green channel of (2, 228, 230) comes back
    as 223. *)
Example round_trip_reaches_5 : roundTrip 2 228 230 = mkRgb 2 223 227.
Proof. vm_compute. reflexivity. Qed.

(** X25: on grey triples the round trip through the rounded HSL view
    stays within 1. *)
Lemma round_trip_grey (v : Z) : byte v -> within 1 (roundTrip v v v) v v v.
Proof.
  intros Hv.
  assert (H : grey_within_1 v = true).
  { apply (interval_forallb grey_within_1 0 256);
      [ vm_compute; reflexivity | unfold byte in Hv; lia ]. }
  unfold grey_within_1 in H. cbv zeta in H. repeat rewrite andb_true_iff in H.
  destruct H as [[H1 H2] H3].
  apply Z.leb_le in H1. apply Z.leb_le in H2. apply Z.leb_le in H3.
  repeat split; assumption.
Qed.




(** C9: [hexToRgb] reads back what [rgbToHex] printed. *)
Theorem hex_round_trip (r g b : Z) :
  byte r -> byte g -> byte b -> hexToRgb (rgbToHex r g b) = Some (mkRgb r g b).
Proof.
  intros Hr Hg Hb.
  destruct (toHex_pair r Hr) as (r1 & r2 & Er & Pr).
  destruct (toHex_pair g Hg) as (g1 & g2 & Eg & Pg).
  destruct (toHex_pair b Hb) as (b1 & b2 & Eb & Pb).
  unfold rgbToHex. rewrite Er, Eg, Eb. cbn [append].
  unfold hexToRgb. rewrite Pr, Pg, Pb. reflexivity.
Qed.

(** C9 at the default colour (79, 70, 229). *)
Lemma hex_round_trip_witness :
  byte 79 /\ byte 70 /\ byte 229 /\ hexToRgb (rgbToHex 79 70 229) = Some (mkRgb 79 70 229).
Proof.
  assert (B1 : byte 79) by (unfold byte; lia).
  assert (B2 : byte 70) by (unfold byte; lia).
  assert (B3 : byte 229) by (unfold byte; lia).
  split; [ exact B1 | split; [ exact B2 | split; [ exact B3 | ] ] ].
  exact (hex_round_trip 79 70 229 B1 B2 B3).
Defined.

Lemma Qrem_nonneg (a : Q) : (0 <= a)%Q -> (Qrem a 360 == hueMod360 a)%Q.
Proof.
  intros Ha. unfold Qrem, Qtrunc, hueMod360.
  assert (H : (0 <= a / 360)%Q).
  { assert (E : (a / 360 == (1 # 360) * a)%Q) by field. rewrite E. lra. }
  apply Qle_bool_iff in H. rewrite H. reflexivity.
Qed.

Lemma hueMod360_small (a b : Q) : (0 <= a < 360)%Q -> (b == a)%Q -> (a == hueMod360 b)%Q.
Proof.
  intros Ha Hb. unfold hueMod360.
  assert (F : Qfloor (b / 360) = 0).
  { assert (E : (b / 360 == (1 # 360) * a)%Q) by (rewrite Hb; field).
    rewrite (Qfloor_comp _ _ E).
    assert (L : Qfloor 0%Q <= Qfloor ((1 # 360) * a)) by (apply Qfloor_resp_le; lra).
    pose proof (Qlt_floor ((1 # 360) * a)) as U.
    assert (U' : (inject_Z (Qfloor ((1 # 360) * a)) < inject_Z 1)%Q).
    { rewrite inject_Z_plus in U. change (inject_Z 1) with 1%Q in *.
      pose proof (Qfloor_le ((1 # 360) * a)). lra. }
    rewrite <- Zlt_Qlt in U'. change (Qfloor 0%Q) with 0 in L. lia. }
  rewrite F. rewrite Hb. change (inject_Z 0) with 0%Q. ring.
Qed.

Lemma hueMod360_comp (a b : Q) : (a == b)%Q -> (hueMod360 a == hueMod360 b)%Q.
Proof.
  intros H. unfold hueMod360.
  rewrite (Qfloor_comp (a / 360) (b / 360)) by (rewrite H; reflexivity).
  rewrite H. reflexivity.
Qed.

Lemma Qfloor_succ (y : Q) : Qfloor (y + 1) = Qfloor y + 1.
Proof.
  pose proof (Qfloor_le y) as L1. pose proof (Qlt_floor y) as U1.
  pose proof (Qfloor_le (y + 1)) as L2. pose proof (Qlt_floor (y + 1)) as U2.
  rewrite inject_Z_plus in U1, U2. change (inject_Z 1) with 1%Q in U1, U2.
  assert (A : (inject_Z (Qfloor (y + 1)) < inject_Z (Qfloor y + 2))%Q).
  { rewrite inject_Z_plus. change (inject_Z 2) with 2%Q. lra. }
  assert (B : (inject_Z (Qfloor y) < inject_Z (Qfloor (y + 1)))%Q) by lra.
  rewrite <- Zlt_Qlt in A, B. lia.
Qed.

Lemma hueMod360_turn (a : Q) : (hueMod360 (a + 360) == hueMod360 a)%Q.
Proof.
  unfold hueMod360.
  rewrite (Qfloor_comp ((a + 360) / 360) (a / 360 + 1)) by field.
  rewrite Qfloor_succ, inject_Z_plus. change (inject_Z 1) with 1%Q. ring.
Qed.

(** Split on the kind of harmony, in the order of the [switch]. *)
Ltac harmony_kind type :=
  repeat match goal with
         | |- context [ String.eqb type ?k ] =>
             let E := fresh "E" in
             destruct (String.eqb type k) eqn:E;
             [ apply String.eqb_eq in E; subst type;
               cbv beta iota zeta delta [String.eqb Ascii.eqb Bool.eqb]
             | ]
         end.

(** C8: the hues of a harmony are the base hue plus the offsets of its
    kind, reduced modulo 360 to a non-negative value, and saturation and
    lightness are the base's, in [script.js] and in the HSL-backed
    picker; the triadic harmony of hue 350 has the hues 350, 110, 230. *)
Theorem harmony_hues (c : hsl) (st : Part000.State) (type : string) :
  0 <= hsl_h c < 360 ->
  (0 <= Part000.h (Part000.currentColor st) < 360)%Q ->
  map hm_hsl (generateHarmonies c type) = map (turned c) (harmonyOffsets type)
  /\ Forall2 (turnedQ (Part000.currentColor st))
       (Part000.generateColorHarmony type st) (harmonyOffsets3 type)
  /\ map (fun member => hsl_h (hm_hsl member))
       (generateHarmonies (mkHsl 350 50 50) "triadic") = [350; 110; 230].
Proof.
  intros Hh HhQ. split; [ | split ].
  - unfold generateHarmonies. rewrite map_map. cbn [hm_hsl]. rewrite map_id.
    unfold harmonyHsls, harmonyOffsets, turned, rem.
    harmony_kind type; cbn [map];
      repeat rewrite Z.rem_mod_nonneg by lia;
      rewrite ?Z.add_0_r, ?(Z.mod_small (hsl_h c) 360) by lia;
      try replace (hsl_h c - 30 + 360) with (hsl_h c + -30 + 1 * 360) by lia;
      try replace (hsl_h c - 15 + 360) with (hsl_h c + -15 + 1 * 360) by lia;
      rewrite ?Z_mod_plus_full; reflexivity.
  - unfold Part000.generateColorHarmony, harmonyOffsets3, harmonyOffsets.
    destruct (Part000.currentColor st) as [bh bs bl ba].
    cbn [Part000.h Part000.s Part000.l] in *.
    harmony_kind type; repeat constructor; cbn [Part000.h Part000.s Part000.l];
      first [ apply hueMod360_small; [ assumption | unfold inject_Z; ring ]
            | rewrite Qrem_nonneg by lra; apply hueMod360_comp; unfold inject_Z; ring
            | rewrite Qrem_nonneg by lra;
              match goal with
              | |- (_ == hueMod360 ?b)%Q =>
                  transitivity (hueMod360 (b + 360));
                  [ apply hueMod360_comp; unfold inject_Z; ring
                  | apply hueMod360_turn ]
              end ].
  - vm_compute. reflexivity.
Qed.

(** C8 at the triadic harmony of (350, 50, 50). *)
Lemma harmony_hues_witness :
  0 <= 350 < 360 /\ (0 <= 0 < 360)%Q /\
  map hm_hsl (generateHarmonies (mkHsl 350 50 50) "triadic")
  = map (turned (mkHsl 350 50 50)) (harmonyOffsets "triadic").
Proof.
  assert (H1 : 0 <= 350 < 360) by lia.
  assert (H2 : (0 <= Part000.h (Part000.currentColor Part000.initial) < 360)%Q)
    by (split; [ discriminate | reflexivity ]).
  split; [ exact H1 | split; [ exact H2 | ] ].
  exact (proj1 (harmony_hues (mkHsl 350 50 50) Part000.initial "triadic" H1 H2)).
Defined.

(** ** The sessions *)

(** [updateColor] moves neither the colour nor alpha, and publishes
    views of the colour it finds. *)
Lemma updateColor_state (pow : Q -> Q -> Q) (uh ur ul : bool) (st : State) :
  currentColor (fst (updateColor pow uh ur ul st)) = currentColor st
  /\ currentAlpha (fst (updateColor pow uh ur ul st)) = currentAlpha st
  /\ isDragging (fst (updateColor pow uh ur ul st)) = isDragging st.
Proof.
  unfold updateColor. destruct uh, ur, ul; repeat split; reflexivity.
Qed.

Lemma updateColor_view (pow : Q -> Q -> Q) (uh ur ul : bool) (st : State) :
  let c := currentColor st in
  let v := snd (updateColor pow uh ur ul st) in
  view_rgb v = c
  /\ view_alpha v = currentAlpha st
  /\ view_hex v = rgbToHex (rgb_r c) (rgb_g c) (rgb_b c)
  /\ view_hsl v = rgbToHsl (rgb_r c) (rgb_g c) (rgb_b c)
  /\ view_whiteRatio v = contrastRatio pow c (mkRgb 255 255 255)
  /\ view_blackRatio v = contrastRatio pow c (mkRgb 0 0 0)
  /\ view_whiteWcag v = updateWcagBadge (view_whiteRatio v)
  /\ view_blackWcag v = updateWcagBadge (view_blackRatio v).
Proof.
  cbv zeta. unfold updateColor. destruct (currentColor st) as [r g b] eqn:Ec.
  destruct uh, ur, ul; cbn; rewrite ?Ec; repeat split; reflexivity.
Qed.

(** With byte channels the published hex string reads back as the
    published channels. *)
Lemma updateColor_consistent (pow : Q -> Q -> Q) (uh ur ul : bool) (st : State) :
  bytes (currentColor st) ->
  let v := snd (updateColor pow uh ur ul st) in
  hexToRgb (view_hex v) = Some (view_rgb v).
Proof.
  intros Hb. cbv zeta.
  destruct (updateColor_view pow uh ur ul st) as (E1 & _ & E2 & _).
  rewrite E1, E2. apply hex_of_bytes_reads_back, Hb.
Qed.

(** C10: the alpha slider changes alpha and nothing else of the colour:
    the channels stay, and so do the hex, RGB and HSL views and both
    contrast ratios, in [script.js] and in the HSL-backed picker. *)
Theorem alpha_edit_frame (pow : Q -> Q -> Q) (st : State) (v : Q)
    (st0 : Part000.State) (rect : Part000.DOMRect) (e : Part000.MouseEvent) :
  let st' := fst (handleAlphaChange pow v st) in
  let before := snd (updateColor pow true true true st) in
  let st0' := Part000.updateOpacityFromSlider rect e st0 in
  (currentColor st' = currentColor st
   /\ isDragging st' = isDragging st
   /\ currentAlpha st' = v
   /\ exists after,
        snd (handleAlphaChange pow v st) = Some after
        /\ view_alpha after = v
        /\ view_hex after = view_hex before
        /\ view_rgb after = view_rgb before
        /\ view_hsl after = view_hsl before
        /\ view_whiteRatio after = view_whiteRatio before
        /\ view_blackRatio after = view_blackRatio before
        /\ view_whiteWcag after = view_whiteWcag before
        /\ view_blackWcag after = view_blackWcag before)
  /\ (Part000.h (Part000.currentColor st0') = Part000.h (Part000.currentColor st0)
      /\ Part000.s (Part000.currentColor st0') = Part000.s (Part000.currentColor st0)
      /\ Part000.l (Part000.currentColor st0') = Part000.l (Part000.currentColor st0)
      /\ (0 <= Part000.a (Part000.currentColor st0') <= 1)%Q
      /\ Part000.disp_hex (Part000.updateDisplays st0')
         = Part000.disp_hex (Part000.updateDisplays st0)
      /\ Part000.disp_rgb (Part000.updateDisplays st0')
         = Part000.disp_rgb (Part000.updateDisplays st0)
      /\ Part000.disp_hsl (Part000.updateDisplays st0')
         = Part000.disp_hsl (Part000.updateDisplays st0)
      /\ Part000.updateContrastTests pow st0' = Part000.updateContrastTests pow st0).
Proof.
  cbv zeta. split.
  - unfold handleAlphaChange.
    destruct (updateColor pow true true true (set_currentAlpha v st)) as [st1 view] eqn:Eu.
    pose proof (updateColor_state pow true true true (set_currentAlpha v st)) as Hs.
    pose proof (updateColor_view pow true true true (set_currentAlpha v st)) as Hv.
    pose proof (updateColor_view pow true true true st) as Hb.
    rewrite Eu in Hs, Hv. cbn [fst snd] in *. cbv zeta in Hv, Hb.
    destruct Hs as (S1 & S2 & S3).
    change (isDragging (set_currentAlpha v st)) with (isDragging st) in S3.
    destruct Hv as (V1 & V2 & V3 & V4 & V5 & V6 & V7 & V8).
    destruct Hb as (B1 & B2 & B3 & B4 & B5 & B6 & B7 & B8).
    change (currentColor (set_currentAlpha v st)) with (currentColor st) in *.
    change (currentAlpha (set_currentAlpha v st)) with v in *.
    repeat split; try assumption.
    exists view. repeat split; try congruence.
  - unfold Part000.updateOpacityFromSlider, Part000.updateDisplays,
      Part000.updateContrastTests.
    cbn [Part000.currentColor Part000.h Part000.s Part000.l Part000.a
         Part000.disp_hex Part000.disp_rgb Part000.disp_hsl].
    repeat split; try reflexivity;
      unfold Part000.fractionX, Math_max, Math_min; split_qle; lra.
Qed.

(** C2 (the code departs from it): the RGB fields are read without a
    range check.  From the initial state, typing 300 into the R field
    stores the channel 300. *)
Theorem rgb_text_300_is_stored (pow : Q -> Q -> Q) :
  let st := fst (step pow (initial pow) (RgbTyped ChanR "300")) in
  bytes (currentColor (initial pow))
  /\ currentColor st = mkRgb 300 70 229
  /\ ~ bytes (currentColor st).
Proof.
  cbv zeta. split; [ | split ].
  - unfold bytes, byte. cbn. lia.
  - vm_compute. reflexivity.
  - intros (H & _). vm_compute in H. destruct H as [_ H]. apply H. reflexivity.
Qed.

(** C4 (the code departs from it): after the same edit the published
    hex string is clamped while the published channels are not, so the
    view disagrees with itself. *)
Theorem rgb_text_300_view (pow : Q -> Q -> Q) :
  exists v,
    snd (step pow (initial pow) (RgbTyped ChanR "300")) = Some v
    /\ view_rgb v = mkRgb 300 70 229
    /\ view_hex v = "#ff46e5"%string
    /\ hexToRgb (view_hex v) = Some (mkRgb 255 70 229)
    /\ hexToRgb (view_hex v) <> Some (view_rgb v).
Proof.
  unfold step, handleRgbChange.
  destruct (updateColor pow true false true _) as [st v] eqn:Eu.
  exists v.
  pose proof (updateColor_view pow true false true
                (set_currentColor
                   (mkRgb (orZero (parseInt (rgbInputs_r (typeRgb ChanR "300" (initial pow)))))
                          (orZero (parseInt (rgbInputs_g (typeRgb ChanR "300" (initial pow)))))
                          (orZero (parseInt (rgbInputs_b (typeRgb ChanR "300" (initial pow))))))
                   (typeRgb ChanR "300" (initial pow)))) as Hv.
  rewrite Eu in Hv. cbv zeta in Hv. cbn [snd] in Hv.
  destruct Hv as (V1 & _ & V3 & _).
  assert (Ec : currentColor
                 (set_currentColor
                    (mkRgb (orZero (parseInt (rgbInputs_r (typeRgb ChanR "300" (initial pow)))))
                           (orZero (parseInt (rgbInputs_g (typeRgb ChanR "300" (initial pow)))))
                           (orZero (parseInt (rgbInputs_b (typeRgb ChanR "300" (initial pow))))))
                    (typeRgb ChanR "300" (initial pow))) = mkRgb 300 70 229)
    by (vm_compute; reflexivity).
  rewrite Ec in V1, V3. rewrite V1, V3.
  repeat split; try (vm_compute; reflexivity).
  vm_compute. discriminate.
Qed.

(** [hexToRgb] returns byte channels. *)
Lemma hexDigit_range (c : ascii) (d : Z) : hexDigit c = Some d -> 0 <= d <= 15.
Proof.
  unfold hexDigit. set (n := Z.of_nat (nat_of_ascii c)).
  destruct ((48 <=? n) && (n <=? 57)) eqn:E1;
    [ | destruct ((97 <=? n) && (n <=? 102)) eqn:E2;
        [ | destruct ((65 <=? n) && (n <=? 70)) eqn:E3 ] ];
    intros E; inversion E; subst;
    match goal with
    | H : _ && _ = true |- _ =>
        apply andb_true_iff in H; destruct H as [Ha Hb];
        apply Z.leb_le in Ha; apply Z.leb_le in Hb; lia
    end.
Qed.

Lemma hexPair_byte (c1 c2 : ascii) (n : Z) : hexPair c1 c2 = Some n -> byte n.
Proof.
  unfold hexPair.
  destruct (hexDigit c1) as [d1 | ] eqn:E1; try discriminate.
  destruct (hexDigit c2) as [d2 | ] eqn:E2; try discriminate.
  intros E. inversion E; subst.
  apply hexDigit_range in E1. apply hexDigit_range in E2. unfold byte. lia.
Qed.

Lemma hexToRgb_bytes (hex : string) (c : rgb) : hexToRgb hex = Some c -> bytes c.
Proof.
  unfold hexToRgb.
  destruct (match hex with String "#" rest => rest | _ => hex end)
    as [ | c1 [ | c2 [ | c3 [ | c4 [ | c5 [ | c6 [ | ] ] ] ] ] ] ]; try discriminate.
  destruct (hexPair c1 c2) eqn:E1; try discriminate.
  destruct (hexPair c3 c4) eqn:E2; try discriminate.
  destruct (hexPair c5 c6) eqn:E3; try discriminate.
  intros E. inversion E; subst. unfold bytes. cbn.
  repeat split; eapply hexPair_byte; eassumption.
Qed.




Lemma validChannel_byte (v : option Z) :
  Part000.validChannel v = true <-> exists n, v = Some n /\ byte n.
Proof.
  unfold Part000.validChannel, byte. destruct v as [n | ].
  - rewrite andb_true_iff, !Z.leb_le. split.
    + intros H. exists n. split; [ reflexivity | exact H ].
    + intros (m & E & H). inversion E; subst. exact H.
  - split; [ discriminate | intros (m & E & _); discriminate E ].
Qed.




(** C6 (the code departs from it): [script.js] keeps the hue in the hue
    slider only, and [updateColor] overwrites the slider with the hue
    derived from the colour.  A drag to the left edge of the field makes
    the colour grey and the slider 0; dragging back to saturation 70
    then builds the colour on hue 0, not on the 243 the session had. *)
Theorem hue_lost_at_zero_saturation (pow : Q -> Q -> Q) :
  let grey := run pow (initial pow) [MouseDown field200 (mkPointer 0 100)] in
  let back := run pow (initial pow)
                [MouseDown field200 (mkPointer 0 100);
                 MouseMove field200 (mkPointer 140 100)] in
  hueSlider (initial pow) = 243
  /\ currentColor grey = mkRgb 128 128 128 /\ hueSlider grey = 0
  /\ currentColor back = mkRgb 217 38 38 /\ hueSlider back = 0
  /\ hslInputs_s back = "70"%string.
Proof.
  cbv zeta. repeat split; vm_compute; reflexivity.
Qed.

(** X26: the HSL-backed picker does what C6 asks: the events that bring
    no hue of their own leave the stored hue alone, whatever saturation
    and lightness they pass through. *)
Lemma stored_hue_survives (parseFloat : string -> option Q) (evs : list Part000.event) :
  forall st0 : Part000.State,
    forallb bringsNoHue evs = true ->
    Part000.h (Part000.currentColor (Part000.run parseFloat st0 evs))
    = Part000.h (Part000.currentColor st0).
Proof.
  induction evs as [ | ev evs IH ]; intros st0 Hall; [ reflexivity | ].
  cbn [forallb] in Hall. apply andb_true_iff in Hall. destruct Hall as [Hev Hall].
  unfold Part000.run in *. cbn [fold_left]. rewrite IH by exact Hall.
  destruct ev; try discriminate Hev; cbn [Part000.step];
    try destruct (Part000.isDragging st0); reflexivity.
Qed.

(** ** Palettes *)




(** * Further properties of the code

    The conversions on their intended ranges, contrast, the keyboard
    and the hue slider, palettes, the theme, and the sessions of both
    pickers. *)

(** ** Auxiliary facts *)

Lemma Math_round_Z (z : Z) : Math_round (inject_Z z) = z.
Proof.
  pose proof (Math_round_near (inject_Z z)) as [H1 H2].
  assert (A : (inject_Z (Math_round (inject_Z z)) < inject_Z (z + 1))%Q).
  { rewrite inject_Z_plus. change (inject_Z 1) with 1%Q. lra. }
  assert (B : (inject_Z (z - 1) < inject_Z (Math_round (inject_Z z)))%Q).
  { unfold Z.sub. rewrite inject_Z_plus. change (inject_Z (- (1))) with (- 1)%Q. lra. }
  rewrite <- Zlt_Qlt in A. rewrite <- Zlt_Qlt in B. lia.
Qed.

Lemma Math_round_between (x : Q) (lo hi : Z) :
  (inject_Z lo <= x <= inject_Z hi)%Q -> lo <= Math_round x <= hi.
Proof.
  intros [H1 H2]. pose proof (Math_round_near x) as [N1 N2].
  assert (A : (inject_Z (lo - 1) < inject_Z (Math_round x))%Q).
  { unfold Z.sub. rewrite inject_Z_plus. change (inject_Z (- (1))) with (- 1)%Q. lra. }
  assert (B : (inject_Z (Math_round x) < inject_Z (hi + 1))%Q).
  { rewrite inject_Z_plus. change (inject_Z 1) with 1%Q. lra. }
  rewrite <- Zlt_Qlt in A. rewrite <- Zlt_Qlt in B. lia.
Qed.

Lemma Math_round_unit (x : Q) (n : Z) :
  (0 <= x <= 1)%Q -> 0 <= n -> 0 <= Math_round (x * inject_Z n) <= n.
Proof.
  intros Hx Hn. apply Math_round_between.
  assert (N : (0 <= inject_Z n)%Q).
  { change 0%Q with (inject_Z 0). rewrite <- Zle_Qle. exact Hn. }
  change (inject_Z 0) with 0%Q. split; nra.
Qed.

Lemma pq_range (s l : Q) :
  (0 <= s <= 1)%Q -> (0 <= l <= 1)%Q ->
  (0 <= pOf s l <= 1 /\ 0 <= qOf s l <= 1)%Q.
Proof.
  intros Hs Hl. unfold pOf, qOf. split_ltb; nra.
Qed.

Lemma hue2rgb_range (p q t : Q) :
  (0 <= p <= 1)%Q -> (0 <= q <= 1)%Q -> (-1 <= t <= 2)%Q ->
  (0 <= hue2rgb p q t <= 1)%Q.
Proof.
  intros Hp Hq Ht. rewrite hue2rgb_affine.
  pose proof (ramp_range t Ht) as Hr. nra.
Qed.

Lemma hslToRgb_range (h s l : Q) :
  (-240 <= h <= 600)%Q -> (0 <= s <= 100)%Q -> (0 <= l <= 100)%Q ->
  bytes (hslToRgb h s l).
Proof.
  intros Hh Hs Hl. unfold hslToRgb. rewrite hslToRgb_unrounded_shape. cbv zeta.
  assert (Hs1 : (0 <= s / 100 <= 1)%Q).
  { assert (E : (s == 100 * (s / 100))%Q) by field. lra. }
  assert (Hl1 : (0 <= l / 100 <= 1)%Q).
  { assert (E : (l == 100 * (l / 100))%Q) by field. lra. }
  assert (Hh1 : (- (2 # 3) <= h / 360 <= 5 # 3)%Q).
  { assert (E : (h == 360 * (h / 360))%Q) by field. lra. }
  destruct (Qeq_bool (s / 100) 0).
  - unfold bytes, byte. cbn [rgb_r rgb_g rgb_b].
    pose proof (Math_round_unit (l / 100) 255 Hl1 ltac:(lia)). tauto.
  - destruct (pq_range _ _ Hs1 Hl1) as [Hp Hq].
    unfold bytes, byte. cbn [rgb_r rgb_g rgb_b]. fractions.
    repeat split;
      apply (Math_round_unit _ 255); try lia; apply hue2rgb_range; try assumption; lra.
Qed.

Lemma chan_unit (c : Z) : byte c -> (0 <= chan c <= 1)%Q.
Proof.
  intros [H0 H1]. pose proof (chan_scaled c) as S.
  rewrite Zle_Qle in H0, H1. change (inject_Z 0) with 0%Q in H0.
  change (inject_Z 255) with 255%Q in H1. lra.
Qed.

Lemma satOf_range (M m : Q) : (0 <= m <= M)%Q -> (M <= 1)%Q -> (0 <= satOf M m <= 1)%Q.
Proof.
  intros Hm HM. unfold satOf.
  destruct (Qeq_bool M m) eqn:E; [ lra | ].
  apply Qeq_bool_neq in E.
  assert (Hlt : (m < M)%Q).
  { apply Qnot_le_lt. intros H. apply E. lra. }
  split_ltb.
  - set (u := ((M - m) / (2 - M - m))%Q).
    assert (Eu : (u * (2 - M - m) == M - m)%Q) by (unfold u; field; lra).
    assert (D : (0 < 2 - M - m)%Q) by lra. nra.
  - set (u := ((M - m) / (M + m))%Q).
    assert (Eu : (u * (M + m) == M - m)%Q) by (unfold u; field; lra).
    assert (D : (0 < M + m)%Q) by lra. nra.
Qed.

Lemma rgbToHsl_range (r g b : Z) :
  byte r -> byte g -> byte b ->
  0 <= hsl_h (rgbToHsl r g b) <= 360 /\
  0 <= hsl_s (rgbToHsl r g b) <= 100 /\
  0 <= hsl_l (rgbToHsl r g b) <= 100.
Proof.
  intros Hr Hg Hb. unfold rgbToHsl. rewrite rgbToHsl_unrounded_shape. cbv zeta.
  pose proof (Math_max3_spec (chan r) (chan g) (chan b)) as HM.
  pose proof (Math_min3_spec (chan r) (chan g) (chan b)) as Hm.
  cbv zeta in HM, Hm.
  set (M := Math_max3 (chan r) (chan g) (chan b)) in *.
  set (m := Math_min3 (chan r) (chan g) (chan b)) in *.
  destruct HM as (M1 & M2 & M3 & HM). destruct Hm as (m1 & m2 & m3 & Hm).
  pose proof (chan_unit r Hr) as Ur. pose proof (chan_unit g Hg) as Ug.
  pose proof (chan_unit b Hb) as Ub.
  assert (B0 : (0 <= m)%Q) by (destruct Hm as [H | [H | H]]; lra).
  assert (B1 : (M <= 1)%Q) by (destruct HM as [H | [H | H]]; lra).
  assert (B2 : (m <= M)%Q) by lra.
  cbn [hsl_h hsl_s hsl_l]. split; [ | split ].
  - destruct (Qeq_bool M m) eqn:E.
    + vm_compute. split; discriminate.
    + apply Qeq_bool_neq in E.
      assert (S : (0 <= sextant (chan r) (chan g) (chan b) M m / 6 < 1)%Q).
      { apply sextant_range; try assumption; try (split; assumption).
        all: try (symmetry in HM); try (symmetry in Hm).
        all: try (destruct Hm as [H | [H | H]]; [ left | right; left | right; right ];
                  rewrite H; reflexivity). }
      apply (Math_round_unit _ 360); [ lra | lia ].
  - apply (Math_round_unit _ 100); [ | lia ]. apply satOf_range; [ lra | exact B1 ].
  - apply (Math_round_unit _ 100); [ | lia ]. unfold lightOf.
    assert (E : (M + m == 2 * ((M + m) / 2))%Q) by field. lra.
Qed.

Lemma clamp_round (n : Z) :
  Math_round (Math_max 0 (Math_min 255 (inject_Z n))) = clampByte n.
Proof.
  rewrite <- (Math_round_Z (clampByte n)). apply Math_round_comp.
  unfold Math_max, Math_min, clampByte.
  change 0%Q with (inject_Z 0). change 255%Q with (inject_Z 255).
  split_qle;
    repeat match goal with
           | H : (inject_Z _ <= inject_Z _)%Q |- _ => rewrite <- Zle_Qle in H
           | H : (inject_Z _ < inject_Z _)%Q |- _ => rewrite <- Zlt_Qlt in H
           end;
    try lia;
    match goal with
    | |- (inject_Z ?a == inject_Z ?z)%Q => replace z with a by lia; reflexivity
    end.
Qed.

Lemma toHex_clamps (n : Z) : toHex n = toHex (clampByte n).
Proof.
  unfold toHex. rewrite !clamp_round.
  replace (clampByte (clampByte n)) with (clampByte n) by (unfold clampByte; lia).
  reflexivity.
Qed.

Lemma clampByte_byte (n : Z) : byte (clampByte n).
Proof. unfold byte, clampByte. lia. Qed.

Lemma rgbToHex_reads_back_clamped (r g b : Z) :
  hexToRgb (rgbToHex r g b) = Some (mkRgb (clampByte r) (clampByte g) (clampByte b)).
Proof.
  unfold rgbToHex. rewrite (toHex_clamps r), (toHex_clamps g), (toHex_clamps b).
  apply (hex_of_bytes_reads_back (mkRgb (clampByte r) (clampByte g) (clampByte b))).
  repeat split; apply clampByte_byte.
Qed.

Lemma hexToRgb_hash_optional (body : string) :
  String.length body = 6%nat -> hexToRgb (String "#" body) = hexToRgb body.
Proof.
  intros H.
  destruct body as [ | c1 [ | c2 [ | c3 [ | c4 [ | c5 [ | c6 [ | ] ] ] ] ] ] ];
    try discriminate.
  destruct (Ascii.eqb c1 "#") eqn:E.
  - apply Ascii.eqb_eq in E. subst c1. reflexivity.
  - destruct c1 as [[] [] [] [] [] [] [] []]; try reflexivity; discriminate.
Qed.

Lemma linearize_range (pow : Q -> Q -> Q) (c : Z) :
  powOnUnit pow -> byte c -> (0 <= linearize pow c <= 1)%Q.
Proof.
  intros [Hp _] Hc. unfold linearize.
  pose proof (chan_unit c Hc) as U. fold (chan c).
  split_qle.
  - set (v := (chan c / (1292 # 100))%Q).
    assert (Ev : (chan c == (1292 # 100) * v)%Q) by (unfold v; field).
    lra.
  - apply Hp.
    set (v := ((chan c + (55 # 1000)) / (1055 # 1000))%Q).
    assert (Ev : (chan c + (55 # 1000) == (1055 # 1000) * v)%Q) by (unfold v; field).
    lra.
Qed.

Lemma luminance_range (pow : Q -> Q -> Q) (c : rgb) :
  powOnUnit pow -> bytes c -> (0 <= luminanceOf pow c <= 1)%Q.
Proof.
  intros Hp (Hr & Hg & Hb). unfold luminanceOf, relativeLuminance.
  pose proof (linearize_range pow _ Hp Hr). pose proof (linearize_range pow _ Hp Hg).
  pose proof (linearize_range pow _ Hp Hb). lra.
Qed.

Lemma luminance_black (pow : Q -> Q -> Q) : (luminanceOf pow black == 0)%Q.
Proof. vm_compute. reflexivity. Qed.

Lemma luminance_white (pow : Q -> Q -> Q) :
  powOnUnit pow -> (luminanceOf pow white == 1)%Q.
Proof.
  intros [_ H1].
  assert (L : (linearize pow 255 == 1)%Q).
  { unfold linearize. destruct (Qle_bool _ _) eqn:E; [ vm_compute in E; discriminate | ].
    apply H1. vm_compute. reflexivity. }
  unfold luminanceOf, relativeLuminance, white. cbn [rgb_r rgb_g rgb_b].
  rewrite L. vm_compute. reflexivity.
Qed.

Lemma Math_max_sym (x y : Q) : (Math_max x y == Math_max y x)%Q.
Proof. unfold Math_max. split_qle; lra. Qed.

Lemma Math_min_sym (x y : Q) : (Math_min x y == Math_min y x)%Q.
Proof. unfold Math_min. split_qle; lra. Qed.

Lemma contrastRatio_luminance (pow : Q -> Q -> Q) (c1 c2 : rgb) :
  contrastRatio pow c1 c2 =
    ((Math_max (luminanceOf pow c1) (luminanceOf pow c2) + (5 # 100)) /
     (Math_min (luminanceOf pow c1) (luminanceOf pow c2) + (5 # 100)))%Q.
Proof. reflexivity. Qed.

Lemma ratio_range (hi lo : Q) :
  (0 <= lo <= hi)%Q -> (hi <= 1)%Q ->
  (1 <= (hi + (5 # 100)) / (lo + (5 # 100)) <= 21)%Q.
Proof.
  intros H1 H2.
  set (v := ((hi + (5 # 100)) / (lo + (5 # 100)))%Q).
  assert (E : (v * (lo + (5 # 100)) == hi + (5 # 100))%Q) by (unfold v; field; lra).
  assert (D : (0 < lo + (5 # 100))%Q) by lra.
  split; nra.
Qed.

Lemma contrastRatio_range_aux (pow : Q -> Q -> Q) (c1 c2 : rgb) :
  powOnUnit pow -> bytes c1 -> bytes c2 ->
  (1 <= contrastRatio pow c1 c2 <= 21)%Q.
Proof.
  intros Hp H1 H2. rewrite contrastRatio_luminance.
  pose proof (luminance_range pow c1 Hp H1) as L1.
  pose proof (luminance_range pow c2 Hp H2) as L2.
  apply ratio_range; unfold Math_max, Math_min; split_qle; lra.
Qed.

Lemma contrast_white_black (pow : Q -> Q -> Q) (c : rgb) :
  powOnUnit pow -> bytes c ->
  (contrastRatio pow c white * contrastRatio pow c black == 21)%Q.
Proof.
  intros Hp Hc. rewrite !contrastRatio_luminance.
  pose proof (luminance_range pow c Hp Hc) as L.
  pose proof (luminance_white pow Hp) as W. pose proof (luminance_black pow) as B.
  set (x := luminanceOf pow c) in *.
  assert (E1 : (Math_max x (luminanceOf pow white) == 1)%Q)
    by (unfold Math_max; split_qle; lra).
  assert (E2 : (Math_min x (luminanceOf pow white) == x)%Q)
    by (unfold Math_min; split_qle; lra).
  assert (E3 : (Math_max x (luminanceOf pow black) == x)%Q)
    by (unfold Math_max; split_qle; lra).
  assert (E4 : (Math_min x (luminanceOf pow black) == 0)%Q)
    by (unfold Math_min; split_qle; lra).
  rewrite E1, E2, E3, E4. field. lra.
Qed.

Lemma badge_FAIL (ratio : Q) : updateWcagBadge ratio = FAIL -> (ratio < 45 # 10)%Q.
Proof. unfold updateWcagBadge. split_qle; try discriminate. intros _. assumption. Qed.

Lemma badge_AAA (ratio : Q) : updateWcagBadge ratio = AAA -> (7 <= ratio)%Q.
Proof. unfold updateWcagBadge. split_qle; try discriminate. intros _. assumption. Qed.
























Lemma analogous_five (c : hsl) : List.length (generateHarmonies c "analogous") = 5%nat.
Proof. reflexivity. Qed.

Lemma findIndexById_spec (id : string) (ps : list json) :
  ~ In JNull ps ->
  match findIndexById id ps with
  | None => existsb (hasId id) ps = false
  | Some i =>
      exists p, nth_error ps i = Some p /\ hasId id p = true
                /\ existsb (hasId id) (firstn i ps) = false
  end.
Proof.
  induction ps as [ | p ps IH ]; intros Hn; [ reflexivity | ].
  assert (Hp : p <> JNull) by (intros ->; apply Hn; left; reflexivity).
  assert (Hps : ~ In JNull ps) by (intros H; apply Hn; right; exact H).
  specialize (IH Hps).
  assert (E : findIndexById id (p :: ps) =
              if hasId id p then Some 0%nat else option_map S (findIndexById id ps)).
  { destruct p; try reflexivity. contradiction. }
  rewrite E. cbn [existsb]. destruct (hasId id p) eqn:Hid.
  - exists p. repeat split. exact Hid.
  - destruct (findIndexById id ps) as [i | ]; cbn [option_map orb].
    + destruct IH as (q & Hq & Hidq & Hbefore). exists q.
      cbn [nth_error firstn existsb]. rewrite Hid. repeat split; assumption.
    + exact IH.
Qed.

Lemma fractionX_unit (rect : Part000.DOMRect) (e : Part000.MouseEvent) :
  (0 <= Part000.fractionX rect e <= 1)%Q.
Proof. unfold Part000.fractionX, Math_max, Math_min. split_qle; lra. Qed.

Lemma fractionY_unit (rect : Part000.DOMRect) (e : Part000.MouseEvent) :
  (0 <= Part000.fractionY rect e <= 1)%Q.
Proof. unfold Part000.fractionY, Math_max, Math_min. split_qle; lra. Qed.

Lemma set_hsl_inGamut (r g b : Z) (st : Part000.State) :
  byte r -> byte g -> byte b -> inGamut (Part000.currentColor st) ->
  inGamut (Part000.currentColor (Part000.set_hsl (rgbToHsl r g b) st)).
Proof.
  intros Hr Hg Hb (_ & _ & _ & Ha).
  destruct (rgbToHsl_range r g b Hr Hg Hb) as ([H1 H2] & [S1 S2] & [L1 L2]).
  unfold inGamut, Part000.set_hsl. cbn [Part000.currentColor Part000.h Part000.s Part000.l Part000.a].
  rewrite Zle_Qle in H1, H2, S1, S2, L1, L2.
  repeat split; first [ assumption | apply Ha ].
Qed.

Lemma handleHexInput_inGamut (text : string) (st : Part000.State) :
  inGamut (Part000.currentColor st) ->
  inGamut (Part000.currentColor (Part000.handleHexInput text st)).
Proof.
  intros H. unfold Part000.handleHexInput, Part000.hexToRgb.
  destruct (hexToRgb text) as [c | ] eqn:E; [ | exact H ].
  destruct (hexToRgb_bytes _ _ E) as (Hr & Hg & Hb).
  apply set_hsl_inGamut; assumption.
Qed.

Lemma handleRgbInput_inGamut (text : string) (st : Part000.State) :
  inGamut (Part000.currentColor st) ->
  inGamut (Part000.currentColor (Part000.handleRgbInput text st)).
Proof.
  intros H. unfold Part000.handleRgbInput.
  destruct ((List.length _ =? 3)%nat && forallb Part000.validChannel _) eqn:E;
    [ | exact H ].
  apply andb_true_iff in E. destruct E as [_ Hall].
  destruct (map (fun v => parseInt (trim v)) (split_comma text))
    as [ | [r | ] [ | [g | ] [ | [b | ] [ | ] ] ] ]; try exact H.
  cbn [forallb] in Hall. rewrite !andb_true_iff in Hall.
  destruct Hall as (Hr & Hg & Hb & _).
  apply validChannel_byte in Hr, Hg, Hb.
  destruct Hr as (r' & Er & Hr). destruct Hg as (g' & Eg & Hg).
  destruct Hb as (b' & Eb & Hb).
  injection Er as <-. injection Eg as <-. injection Eb as <-.
  apply set_hsl_inGamut; assumption.
Qed.

Lemma step_inGamut (parseFloat : string -> option Q) (st : Part000.State)
    (ev : Part000.event) :
  inGamut (Part000.currentColor st) -> inGamutEvent parseFloat ev ->
  inGamut (Part000.currentColor (Part000.step parseFloat st ev)).
Proof.
  intros H Hev. pose proof H as (Hh & Hs & Hl & Ha).
  destruct ev as [rect e | rect e | rect e | rect e | rect e | rect e | | text | text
                 | text | [[ch cs] cl] | hex ];
    cbn [Part000.step inGamutEvent] in *;
    try (destruct (Part000.isDragging st); [ | exact H ]).
  1, 2: pose proof (fractionX_unit rect e); pose proof (fractionY_unit rect e);
    unfold inGamut, Part000.updateColorFromArea;
    cbn [Part000.currentColor Part000.startDrag Part000.h Part000.s Part000.l Part000.a];
    repeat split; try lra; nra.
  1, 2: pose proof (fractionX_unit rect e);
    unfold inGamut, Part000.updateHueFromSlider;
    cbn [Part000.currentColor Part000.startDrag Part000.h Part000.s Part000.l Part000.a];
    repeat split; try lra; nra.
  1, 2: pose proof (fractionX_unit rect e);
    unfold inGamut, Part000.updateOpacityFromSlider;
    cbn [Part000.currentColor Part000.startDrag Part000.h Part000.s Part000.l Part000.a];
    repeat split; lra.
  - exact H.
  - apply handleHexInput_inGamut, H.
  - apply handleRgbInput_inGamut, H.
  - unfold Part000.handleHslInput.
    destruct ((List.length _ =? 3)%nat && forallb Part000.isNumber _); [ | exact H ].
    destruct (map (fun v => parseFloat (trim v)) (split_comma text))
      as [ | [v0 | ] [ | [v1 | ] [ | [v2 | ] [ | ] ] ] ] eqn:Ev; try exact H.
    destruct (Hev v0 v1 v2 eq_refl) as (R0 & R1 & R2).
    unfold inGamut. cbn. repeat split; first [ apply R0 | apply R1 | apply R2 | apply Ha ].
  - destruct Hev as (R0 & R1 & R2).
    unfold inGamut. cbn. repeat split; first [ apply R0 | apply R1 | apply R2 | apply Ha ].
  - apply handleHexInput_inGamut, H.
Qed.

Lemma byteHex_toHex (n : Z) : byte n -> Part000.byteHex n = toHex n.
Proof.
  intros Hn. apply String.eqb_eq.
  apply (interval_forallb byteHex_agrees 0 256); [ vm_compute; reflexivity | ].
  unfold byte in Hn. lia.
Qed.

Lemma rgbToHex_agree (c : rgb) :
  bytes c ->
  Part000.rgbToHex (rgb_r c) (rgb_g c) (rgb_b c) = rgbToHex (rgb_r c) (rgb_g c) (rgb_b c).
Proof.
  intros (Hr & Hg & Hb). unfold Part000.rgbToHex, rgbToHex.
  rewrite !byteHex_toHex by assumption. reflexivity.
Qed.

Lemma updateDisplays_inGamut (st : Part000.State) :
  inGamut (Part000.currentColor st) ->
  let d := Part000.updateDisplays st in
  bytes (Part000.disp_rgb d) /\ hexToRgb (Part000.disp_hex d) = Some (Part000.disp_rgb d).
Proof.
  intros (Hh & Hs & Hl & _). cbv zeta. unfold Part000.updateDisplays.
  cbn [Part000.disp_rgb Part000.disp_hex].
  assert (B : bytes (Part000.hslToRgb (Part000.h (Part000.currentColor st))
                       (Part000.s (Part000.currentColor st))
                       (Part000.l (Part000.currentColor st)))).
  { apply hslToRgb_range; lra. }
  split; [ exact B | ].
  rewrite (rgbToHex_agree _ B). apply hex_of_bytes_reads_back, B.
Qed.

(** ** The colour conversions on their intended ranges *)

(** X1: on a hue between -240 and 600 and a saturation and lightness
    between 0 and 100, [hslToRgb] returns three bytes; at saturation 0
    they are one grey level, whatever the hue. *)
Theorem hslToRgb_gives_bytes (h s l : Q) :
  (-240 <= h <= 600)%Q -> (0 <= s <= 100)%Q -> (0 <= l <= 100)%Q ->
  bytes (hslToRgb h s l)
  /\ hslToRgb h 0 l
     = mkRgb (Math_round (l / 100 * 255)) (Math_round (l / 100 * 255))
         (Math_round (l / 100 * 255)).
Proof.
  intros Hh Hs Hl. split.
  - apply hslToRgb_range; assumption.
  - unfold hslToRgb. rewrite hslToRgb_unrounded_shape. cbv zeta.
    change (Qeq_bool (0 / 100) 0) with true. reflexivity.
Qed.

Lemma hslToRgb_gives_bytes_witness :
  (-240 <= 258 <= 600)%Q /\ (0 <= 77 <= 100)%Q /\ (0 <= 59 <= 100)%Q
  /\ bytes (hslToRgb 258 77 59).
Proof.
  assert (A1 : (-240 <= 258 <= 600)%Q) by lra.
  assert (A2 : (0 <= 77 <= 100)%Q) by lra.
  assert (A3 : (0 <= 59 <= 100)%Q) by lra.
  split; [ exact A1 | split; [ exact A2 | split; [ exact A3 | ] ] ].
  exact (proj1 (hslToRgb_gives_bytes 258 77 59 A1 A2 A3)).
Defined.

(** X2: on three bytes [rgbToHsl] returns a hue between 0 and 360, both
    ends included, and a saturation and lightness between 0 and 100; a
    grey has hue 0 and saturation 0. *)
Theorem rgbToHsl_gamut (r g b : Z) :
  byte r -> byte g -> byte b ->
  let c := rgbToHsl r g b in
  0 <= hsl_h c <= 360 /\ 0 <= hsl_s c <= 100 /\ 0 <= hsl_l c <= 100
  /\ (r = g /\ g = b -> hsl_h c = 0 /\ hsl_s c = 0)
  /\ hsl_h (rgbToHsl 255 0 1) = 360.
Proof.
  intros Hr Hg Hb. cbv zeta.
  destruct (rgbToHsl_range r g b Hr Hg Hb) as (H1 & H2 & H3).
  split; [ exact H1 | split; [ exact H2 | split; [ exact H3 | split ] ] ].
  - intros [-> ->]. unfold rgbToHsl, rgbToHsl_unrounded.
    assert (E : Qeq_bool (Math_max3 (inject_Z b / 255) (inject_Z b / 255) (inject_Z b / 255))
                  (Math_min3 (inject_Z b / 255) (inject_Z b / 255) (inject_Z b / 255)) = true).
    { apply Qeq_bool_iff. unfold Math_max3, Math_min3, Math_max, Math_min.
      split_qle; lra. }
    rewrite E. split; reflexivity.
  - vm_compute. reflexivity.
Qed.

Lemma rgbToHsl_gamut_witness :
  byte 79 /\ byte 70 /\ byte 229 /\ 0 <= hsl_h (rgbToHsl 79 70 229) <= 360.
Proof.
  assert (A1 : byte 79) by (unfold byte; lia).
  assert (A2 : byte 70) by (unfold byte; lia).
  assert (A3 : byte 229) by (unfold byte; lia).
  split; [ exact A1 | split; [ exact A2 | split; [ exact A3 | ] ] ].
  exact (proj1 (rgbToHsl_gamut 79 70 229 A1 A2 A3)).
Defined.

(** X3: [rgbToHex] accepts any three integers: the text it returns has
    seven characters and reads back, through [hexToRgb], as the
    channels clamped to bytes.  So the hex view [updateColor] publishes
    always parses, and shows the stored colour exactly when its
    channels are bytes. *)
Theorem rgbToHex_clamps (pow : Q -> Q -> Q) (r g b : Z) (uh ur ul : bool) (st : State) :
  hexToRgb (rgbToHex r g b) = Some (mkRgb (clampByte r) (clampByte g) (clampByte b))
  /\ String.length (rgbToHex r g b) = 7%nat
  /\ hexToRgb (view_hex (snd (updateColor pow uh ur ul st)))
     = Some (clampRgb (currentColor st))
  /\ (hexToRgb (view_hex (snd (updateColor pow uh ur ul st))) = Some (currentColor st)
      <-> bytes (currentColor st)).
Proof.
  assert (Hread : forall x y z,
             hexToRgb (rgbToHex x y z)
             = Some (mkRgb (clampByte x) (clampByte y) (clampByte z)))
    by apply rgbToHex_reads_back_clamped.
  assert (Hview : hexToRgb (view_hex (snd (updateColor pow uh ur ul st)))
                  = Some (clampRgb (currentColor st))).
  { destruct (updateColor_view pow uh ur ul st) as (_ & _ & E & _).
    rewrite E. apply Hread. }
  split; [ apply Hread | split; [ | split; [ exact Hview | ] ] ].
  - unfold rgbToHex.
    destruct (toHex_pair _ (clampByte_byte r)) as (r1 & r2 & Er & _).
    destruct (toHex_pair _ (clampByte_byte g)) as (g1 & g2 & Eg & _).
    destruct (toHex_pair _ (clampByte_byte b)) as (b1 & b2 & Eb & _).
    rewrite (toHex_clamps r), (toHex_clamps g), (toHex_clamps b), Er, Eg, Eb.
    reflexivity.
  - rewrite Hview. destruct (currentColor st) as [x y z].
    unfold clampRgb, bytes, byte, clampByte. cbn [rgb_r rgb_g rgb_b]. split.
    + intros E. injection E as E1 E2 E3. lia.
    + intros (H1 & H2 & H3). f_equal. f_equal; lia.
Qed.

(** X4: what [hexToRgb] accepts is six characters, or seven of which
    the first is [#]; the channels it returns are bytes, and the text
    [rgbToHex] prints for them reads back as the same colour. *)
Theorem hexToRgb_accepts (hex : string) (c : rgb) :
  hexToRgb hex = Some c ->
  bytes c
  /\ (String.length hex = 6%nat
      \/ exists body, hex = String "#" body /\ String.length body = 6%nat)
  /\ hexToRgb (rgbToHex (rgb_r c) (rgb_g c) (rgb_b c)) = Some c.
Proof.
  intros H. pose proof (hexToRgb_bytes hex c H) as Hb.
  split; [ exact Hb | split; [ | apply hex_of_bytes_reads_back, Hb ] ].
  unfold hexToRgb in H.
  destruct hex as [ | a0 hex ]; [ discriminate | ].
  destruct (Ascii.eqb a0 "#") eqn:E.
  - apply Ascii.eqb_eq in E. subst a0. right. exists hex. split; [ reflexivity | ].
    destruct hex as [ | c1 [ | c2 [ | c3 [ | c4 [ | c5 [ | c6 [ | ] ] ] ] ] ] ];
      try discriminate; reflexivity.
  - left.
    assert (H' : match String a0 hex with
                 | String c1 (String c2 (String c3 (String c4 (String c5 (String c6 EmptyString))))) =>
                     match hexPair c1 c2, hexPair c3 c4, hexPair c5 c6 with
                     | Some r, Some g, Some b => Some (mkRgb r g b)
                     | _, _, _ => None
                     end
                 | _ => None
                 end = Some c).
    { destruct a0 as [[] [] [] [] [] [] [] []]; try exact H; discriminate. }
    destruct hex as [ | c2 [ | c3 [ | c4 [ | c5 [ | c6 [ | ] ] ] ] ] ];
      try discriminate; reflexivity.
Qed.

Lemma hexToRgb_accepts_witness :
  hexToRgb "#4F46E5" = Some (mkRgb 79 70 229) /\ bytes (mkRgb 79 70 229).
Proof.
  assert (A : hexToRgb "#4F46E5" = Some (mkRgb 79 70 229)) by reflexivity.
  split; [ exact A | ].
  exact (proj1 (hexToRgb_accepts "#4F46E5" (mkRgb 79 70 229) A)).
Defined.

Lemma hexDigit_upperCase (c : ascii) : hexDigit (upperCase c) = hexDigit c.
Proof. destruct c as [[] [] [] [] [] [] [] []]; reflexivity. Qed.

Lemma upperCase_hash (c : ascii) : Ascii.eqb (upperCase c) "#" = Ascii.eqb c "#".
Proof. destruct c as [[] [] [] [] [] [] [] []]; reflexivity. Qed.

Lemma hexPair_upperCase (c1 c2 : ascii) :
  hexPair (upperCase c1) (upperCase c2) = hexPair c1 c2.
Proof. unfold hexPair. rewrite !hexDigit_upperCase. reflexivity. Qed.

Lemma hexBody_upperCase (body : string) :
  match toUpperCase body with
  | String c1 (String c2 (String c3 (String c4 (String c5 (String c6 EmptyString))))) =>
      match hexPair c1 c2, hexPair c3 c4, hexPair c5 c6 with
      | Some r, Some g, Some b => Some (mkRgb r g b)
      | _, _, _ => None
      end
  | _ => None
  end =
  match body with
  | String c1 (String c2 (String c3 (String c4 (String c5 (String c6 EmptyString))))) =>
      match hexPair c1 c2, hexPair c3 c4, hexPair c5 c6 with
      | Some r, Some g, Some b => Some (mkRgb r g b)
      | _, _, _ => None
      end
  | _ => None
  end.
Proof.
  destruct body as [ | c1 [ | c2 [ | c3 [ | c4 [ | c5 [ | c6 [ | ] ] ] ] ] ] ];
    try reflexivity.
  cbn [toUpperCase]. rewrite !hexPair_upperCase. reflexivity.
Qed.

Lemma hexToRgb_body (hex : string) :
  hexToRgb hex =
  let body := match hex with
              | String c rest => if Ascii.eqb c "#" then rest else hex
              | EmptyString => hex
              end in
  match body with
  | String c1 (String c2 (String c3 (String c4 (String c5 (String c6 EmptyString))))) =>
      match hexPair c1 c2, hexPair c3 c4, hexPair c5 c6 with
      | Some r, Some g, Some b => Some (mkRgb r g b)
      | _, _, _ => None
      end
  | _ => None
  end.
Proof.
  destruct hex as [ | c rest ]; [ reflexivity | ].
  destruct (Ascii.eqb c "#") eqn:E.
  - apply Ascii.eqb_eq in E. subst c. reflexivity.
  - destruct c as [[] [] [] [] [] [] [] []]; try reflexivity; discriminate.
Qed.

(** X5: [hexToRgb] ignores the case of the letters, and the leading
    [#] is optional. *)
Theorem hexToRgb_case_and_hash (hex : string) (c1 c2 c3 c4 c5 c6 : ascii) :
  hexToRgb (toUpperCase hex) = hexToRgb hex
  /\ hexToRgb (String "#" (String c1 (String c2 (String c3 (String c4 (String c5
                (String c6 EmptyString)))))))
     = hexToRgb (String c1 (String c2 (String c3 (String c4 (String c5
                  (String c6 EmptyString)))))).
Proof.
  split.
  - rewrite (hexToRgb_body (toUpperCase hex)), (hexToRgb_body hex). cbv zeta.
    destruct hex as [ | c rest ]; [ reflexivity | ].
    cbn [toUpperCase]. rewrite upperCase_hash.
    destruct (Ascii.eqb c "#").
    + apply hexBody_upperCase.
    + apply (hexBody_upperCase (String c rest)).
  - apply hexToRgb_hash_optional. reflexivity.
Qed.

(** ** Contrast *)

(** X6: the contrast ratio does not depend on the order of the two
    colours, whatever [Math.pow] computes. *)
Theorem contrastRatio_symmetric (pow : Q -> Q -> Q) (c1 c2 : rgb) :
  (contrastRatio pow c1 c2 == contrastRatio pow c2 c1)%Q
  /\ (Part000.getContrastRatio pow c1 c2 == Part000.getContrastRatio pow c2 c1)%Q.
Proof.
  assert (H : (contrastRatio pow c1 c2 == contrastRatio pow c2 c1)%Q).
  { rewrite !contrastRatio_luminance.
    rewrite (Math_max_sym (luminanceOf pow c1)), (Math_min_sym (luminanceOf pow c1)).
    reflexivity. }
  split; exact H.
Qed.

(** X7: when [Math.pow] maps the unit interval into itself, the
    relative luminance of a byte colour lies between 0 and 1 and the
    contrast ratio of two byte colours between 1 and 21. *)
Theorem contrastRatio_between_1_and_21 (pow : Q -> Q -> Q) (c1 c2 : rgb) :
  powOnUnit pow -> bytes c1 -> bytes c2 ->
  (0 <= luminanceOf pow c1 <= 1)%Q /\ (1 <= contrastRatio pow c1 c2 <= 21)%Q.
Proof.
  intros Hp H1 H2. split.
  - apply luminance_range; assumption.
  - apply contrastRatio_range_aux; assumption.
Qed.

Lemma powOnUnit_identity : powOnUnit (fun x _ => x).
Proof.
  split; [ intros x H; exact H | intros x H; exact H ].
Defined.

Lemma contrastRatio_between_1_and_21_witness :
  powOnUnit (fun x _ => x) /\ bytes (mkRgb 79 70 229) /\ bytes white
  /\ (1 <= contrastRatio (fun x _ => x) (mkRgb 79 70 229) white <= 21)%Q.
Proof.
  assert (A1 : bytes (mkRgb 79 70 229)) by (unfold bytes, byte; cbn; lia).
  assert (A2 : bytes white) by (unfold bytes, byte; cbn; lia).
  split; [ exact powOnUnit_identity | split; [ exact A1 | split; [ exact A2 | ] ] ].
  exact (proj2 (contrastRatio_between_1_and_21 (fun x _ => x) (mkRgb 79 70 229) white
                  powOnUnit_identity A1 A2)).
Defined.

(** X8: the two ratios [updateContrastInfo] publishes for a byte
    colour multiply to 21, so the two badges are never both FAIL and
    never both AAA. *)
Theorem contrast_badges_complement (pow : Q -> Q -> Q) (uh ur ul : bool) (st : State) :
  powOnUnit pow -> bytes (currentColor st) ->
  let v := snd (updateColor pow uh ur ul st) in
  (view_whiteRatio v * view_blackRatio v == 21)%Q
  /\ ~ (view_whiteWcag v = FAIL /\ view_blackWcag v = FAIL)
  /\ ~ (view_whiteWcag v = AAA /\ view_blackWcag v = AAA).
Proof.
  intros Hp Hb. cbv zeta.
  destruct (updateColor_view pow uh ur ul st) as (_ & _ & _ & _ & Ew & Eb & Bw & Bb).
  pose proof (contrast_white_black pow (currentColor st) Hp Hb) as Hprod.
  fold white in Ew. fold black in Eb. rewrite <- Ew, <- Eb in Hprod.
  pose proof (contrastRatio_range_aux pow (currentColor st) white Hp Hb
                ltac:(unfold bytes, byte; cbn; lia)) as Rw.
  pose proof (contrastRatio_range_aux pow (currentColor st) black Hp Hb
                ltac:(unfold bytes, byte; cbn; lia)) as Rb.
  rewrite <- Ew in Rw. rewrite <- Eb in Rb.
  set (w := view_whiteRatio (snd (updateColor pow uh ur ul st))) in *.
  set (k := view_blackRatio (snd (updateColor pow uh ur ul st))) in *.
  split; [ exact Hprod | split ].
  - intros [Fw Fk]. rewrite Bw in Fw. rewrite Bb in Fk.
    apply badge_FAIL in Fw. apply badge_FAIL in Fk. nra.
  - intros [Fw Fk]. rewrite Bw in Fw. rewrite Bb in Fk.
    apply badge_AAA in Fw. apply badge_AAA in Fk. nra.
Qed.

Lemma contrast_badges_complement_witness :
  powOnUnit (fun x _ => x) /\ bytes (currentColor (initial (fun x _ => x)))
  /\ ~ (view_whiteWcag (snd (updateColor (fun x _ => x) true true true
                               (initial (fun x _ => x)))) = FAIL
        /\ view_blackWcag (snd (updateColor (fun x _ => x) true true true
                                  (initial (fun x _ => x)))) = FAIL).
Proof.
  assert (A : bytes (currentColor (initial (fun x _ => x))))
    by (unfold bytes, byte; cbn; lia).
  split; [ exact powOnUnit_identity | split; [ exact A | ] ].
  exact (proj1 (proj2 (contrast_badges_complement (fun x _ => x) true true true
                         (initial (fun x _ => x)) powOnUnit_identity A))).
Defined.

(** ** Harmonies *)




(** ** The session of [script.js] *)







(** ** Palettes of [script.js] *)






Lemma nth_error_parts {A : Type} (l : list A) (i : nat) (x : A) :
  nth_error l i = Some x -> l = firstn i l ++ x :: skipn (S i) l.
Proof.
  revert l. induction i as [ | i IH ]; intros [ | a l ] H; try discriminate.
  - injection H as ->. reflexivity.
  - cbn [nth_error] in H. cbn [firstn skipn app]. f_equal. apply IH, H.
Qed.

(** X15: on an array without [null], [deletePalette] removes the first
    palette whose identifier is the given text, and that one only: the
    palettes before it and after it stay, in their order; when no
    palette has the identifier, the array stays as it is. *)
Theorem deletePalette_removes_first (id : string) (savedPalettes : list json) :
  ~ In JNull savedPalettes ->
  (existsb (hasId id) savedPalettes = false
   /\ deletePalette id savedPalettes = (savedPalettes, None))
  \/ (exists before p after,
        savedPalettes = before ++ p :: after
        /\ hasId id p = true /\ existsb (hasId id) before = false
        /\ deletePalette id savedPalettes = (before ++ after, Some p)).
Proof.
  intros Hn. pose proof (findIndexById_spec id savedPalettes Hn) as H.
  unfold deletePalette. destruct (findIndexById id savedPalettes) as [i | ].
  - right. destruct H as (p & Hp & Hid & Hbefore).
    exists (firstn i savedPalettes), p, (skipn (S i) savedPalettes).
    split; [ apply nth_error_parts, Hp | ].
    split; [ exact Hid | split; [ exact Hbefore | ] ]. rewrite Hp. reflexivity.
  - left. split; [ exact H | reflexivity ].
Qed.

Lemma deletePalette_removes_first_witness :
  ~ In JNull [palette "1" "mine"; palette "2" "other"; palette "1" "theirs"]
  /\ deletePalette "1" [palette "1" "mine"; palette "2" "other"; palette "1" "theirs"]
     = ([palette "2" "other"; palette "1" "theirs"], Some (palette "1" "mine")).
Proof.
  assert (A : ~ In JNull [palette "1" "mine"; palette "2" "other"; palette "1" "theirs"]).
  { intros [H | [H | [H | []]]]; discriminate H. }
  split; [ exact A | ].
  destruct (deletePalette_removes_first "1"
              [palette "1" "mine"; palette "2" "other"; palette "1" "theirs"] A)
    as [[_ E] | _]; [ discriminate E | ].
  reflexivity.
Defined.




(** ** The theme *)

Lemma themeStep_stored (t : Theme) (ev : themeEvent) :
  noEntry (storedTheme t) = false ->
  noEntry (storedTheme (themeStep t ev)) = false
  /\ (isToggle ev = false -> themeStep t ev = t).
Proof.
  intros H. destruct ev as [ | matches ]; cbn [themeStep isToggle].
  - split; [ | discriminate ]. unfold toggleTheme, setTheme. cbn [storedTheme].
    destruct (dataTheme t) as [c | ]; [ destruct (String.eqb c "dark") | ]; reflexivity.
  - unfold systemThemeChanged. rewrite H. split; [ exact H | reflexivity ].
Qed.

Lemma setupTheme_stored (prefersDark : bool) (t : Theme) :
  noEntry (storedTheme (setupTheme prefersDark t)) = false.
Proof.
  unfold setupTheme, setTheme. cbn [storedTheme].
  destruct (storedTheme t) as [ [ | c s ] | ]; try reflexivity;
    destruct prefersDark; reflexivity.
Qed.

(** X17: [setTheme] always stores the theme, so once [setupTheme] has
    run the listener for the system's colour scheme never changes
    anything: a run of toggle clicks and system changes ends as the
    toggle clicks alone do. *)
Theorem system_theme_is_never_followed (prefersDark : bool) (t : Theme)
    (evs : list themeEvent) :
  fold_left themeStep evs (setupTheme prefersDark t)
  = fold_left themeStep (filter isToggle evs) (setupTheme prefersDark t).
Proof.
  pose proof (setupTheme_stored prefersDark t) as H.
  generalize dependent (setupTheme prefersDark t). intros s H.
  revert s H. induction evs as [ | ev evs IH ]; intros s H; [ reflexivity | ].
  destruct (themeStep_stored s ev H) as [H1 H2].
  cbn [fold_left filter]. destruct (isToggle ev) eqn:E.
  - cbn [fold_left]. apply IH, H1.
  - rewrite (H2 eq_refl). apply IH, H.
Qed.

(** X18: a toggle click always lands on dark or light, with the stored
    entry and the icon in step; from there two more clicks come back to
    the same theme.  A stored theme that is neither is taken over by
    [setupTheme] and never comes back after a click. *)
Theorem toggleTheme_alternates (t : Theme) (prefersDark : bool) :
  let t1 := toggleTheme t in
  (dataTheme t1 = Some "dark"%string \/ dataTheme t1 = Some "light"%string)
  /\ storedTheme t1 = dataTheme t1
  /\ (themeIcon t1 = Sun <-> dataTheme t1 = Some "dark"%string)
  /\ toggleTheme (toggleTheme t1) = t1
  /\ dataTheme (setupTheme prefersDark (mkTheme None Moon (Some "blue"%string)))
     = Some "blue"%string.
Proof.
  cbv zeta. unfold toggleTheme, setTheme.
  destruct (dataTheme t) as [c | ]; [ destruct (String.eqb c "dark") | ];
    cbn; (repeat split; try (intros; discriminate); try reflexivity);
    first [ right; reflexivity | left; reflexivity ].
Qed.

(** ** The drift of the rounded HSL view in use *)




(** ** The HSL-backed picker *)

Lemma hueMod360_range (h : Q) : (0 <= hueMod360 h < 360)%Q.
Proof.
  unfold hueMod360.
  pose proof (Qfloor_le (h / 360)) as H1. pose proof (Qlt_floor (h / 360)) as H2.
  rewrite inject_Z_plus in H2. change (inject_Z 1) with 1%Q in H2.
  assert (E : (h == 360 * (h / 360))%Q) by field.
  set (f := inject_Z (Qfloor (h / 360))) in *. lra.
Qed.

(** X20: a session of the HSL-backed picker that starts in the
    constructor's state and receives pointer events on elements of
    positive size, hex and RGB text, picked colours, and HSL text and
    clicked colours within the ranges keeps its hue in [0, 360], its
    saturation and lightness in [0, 100] and its alpha in [0, 1]; the
    RGB field then shows bytes and the hex field a text that reads back
    as them. *)
Theorem picker_stays_in_gamut (parseFloat : string -> option Q)
    (evs : list Part000.event) :
  Forall (inGamutEvent parseFloat) evs ->
  let st := Part000.run parseFloat Part000.initial evs in
  let d := Part000.updateDisplays st in
  inGamut (Part000.currentColor st)
  /\ bytes (Part000.disp_rgb d)
  /\ hexToRgb (Part000.disp_hex d) = Some (Part000.disp_rgb d).
Proof.
  intros Hall. cbv zeta.
  assert (H0 : inGamut (Part000.currentColor Part000.initial))
    by (unfold inGamut; cbn; lra).
  assert (H : inGamut (Part000.currentColor
                         (Part000.run parseFloat Part000.initial evs))).
  { generalize dependent Part000.initial. intros st0 H0. revert st0 H0.
    induction Hall as [ | ev rest Hev Hrest IH ]; intros st0 H0; [ exact H0 | ].
    unfold Part000.run in *. cbn [fold_left]. apply IH.
    apply step_inGamut; assumption. }
  split; [ exact H | exact (updateDisplays_inGamut _ H) ].
Qed.

Lemma picker_stays_in_gamut_witness :
  Forall (inGamutEvent (fun _ => None)) sampleEvents
  /\ inGamut (Part000.currentColor (Part000.run (fun _ => None) Part000.initial sampleEvents)).
Proof.
  assert (A : Forall (inGamutEvent (fun _ => None)) sampleEvents).
  { unfold sampleEvents.
    repeat (apply Forall_cons; [ | ]); try apply Forall_nil;
      cbn [inGamutEvent]; try exact I; unfold area100; cbn [Part000.width Part000.height];
      lra. }
  split; [ exact A | ].
  exact (proj1 (picker_stays_in_gamut (fun _ => None) sampleEvents A)).
Defined.

(** X21: the members of every harmony of a colour within the ranges
    are within the ranges, so a click on one of them keeps the picker
    there. *)
Theorem harmony_click_stays_in_gamut (parseFloat : string -> option Q) (type : string)
    (st : Part000.State) (member : Q * Q * Q) :
  inGamut (Part000.currentColor st) ->
  In member (Part000.generateColorHarmony type st) ->
  inGamutEvent parseFloat (Part000.ColorClick member)
  /\ inGamut (Part000.currentColor (Part000.step parseFloat st (Part000.ColorClick member))).
Proof.
  intros H Hin. pose proof H as (Hh & Hs & Hl & Ha).
  assert (R : forall x, (0 <= x)%Q -> (0 <= Qrem x 360 <= 360)%Q).
  { intros x Hx. rewrite Qrem_nonneg by exact Hx.
    pose proof (hueMod360_range x). lra. }
  assert (G : inGamutEvent parseFloat (Part000.ColorClick member)).
  { unfold Part000.generateColorHarmony in Hin.
    destruct (String.eqb type "complementary");
      [ | destruct (String.eqb type "analogous");
          [ | destruct (String.eqb type "triadic");
              [ | destruct (String.eqb type "tetradic") ] ] ];
      cbn [In] in Hin;
      repeat match goal with
             | H : _ \/ _ |- _ => destruct H as [H | H]
             | H : False |- _ => contradiction
             end;
      subst member; cbn [inGamutEvent];
      (split; [ | split; assumption ]);
      first [ exact Hh | apply R; lra ]. }
  split; [ exact G | ]. apply step_inGamut; assumption.
Qed.

Lemma harmony_click_stays_in_gamut_witness :
  inGamut (Part000.currentColor Part000.initial)
  /\ In (Qrem (0 - 30 + 360) 360, 70, 40)%Q
        (Part000.generateColorHarmony "analogous" Part000.initial)
  /\ inGamut (Part000.currentColor
                (Part000.step (fun _ => None) Part000.initial
                   (Part000.ColorClick (Qrem (0 - 30 + 360) 360, 70, 40)%Q))).
Proof.
  assert (A1 : inGamut (Part000.currentColor Part000.initial))
    by (unfold inGamut; cbn; lra).
  assert (A2 : In (Qrem (0 - 30 + 360) 360, 70, 40)%Q
                  (Part000.generateColorHarmony "analogous" Part000.initial))
    by (left; reflexivity).
  split; [ exact A1 | split; [ exact A2 | ] ].
  exact (proj2 (harmony_click_stays_in_gamut (fun _ => None) "analogous" Part000.initial
                  (Qrem (0 - 30 + 360) 360, 70, 40)%Q A1 A2)).
Defined.

Lemma grade_belowAA (ratio : Q) :
  belowAA (Part000.formatRatio ratio) = true -> (ratio < 45 # 10)%Q.
Proof.
  unfold Part000.formatRatio. split_qle; cbn [belowAA]; try discriminate; intros _; lra.
Qed.

(** X22: for a colour within the ranges the two ratios of
    [updateContrastTests] multiply to 21, so black text and white text
    are never both graded below AA. *)
Theorem contrast_labels_complement (pow : Q -> Q -> Q) (st : Part000.State) :
  powOnUnit pow -> inGamut (Part000.currentColor st) ->
  let blackRatio := fst (Part000.updateContrastTests pow st) in
  let whiteRatio := snd (Part000.updateContrastTests pow st) in
  (blackRatio * whiteRatio == 21)%Q
  /\ ~ (belowAA (Part000.formatRatio blackRatio) = true
        /\ belowAA (Part000.formatRatio whiteRatio) = true).
Proof.
  intros Hp (Hh & Hs & Hl & _). cbv zeta. unfold Part000.updateContrastTests.
  cbn [fst snd]. unfold Part000.getContrastRatio.
  set (c := Part000.hslToRgb _ _ _).
  assert (B : bytes c) by (apply hslToRgb_range; lra).
  pose proof (contrast_white_black pow c Hp B) as Hprod.
  fold black. fold white.
  pose proof (contrastRatio_range_aux pow c white Hp B
                ltac:(unfold bytes, byte; cbn; lia)) as Rw.
  pose proof (contrastRatio_range_aux pow c black Hp B
                ltac:(unfold bytes, byte; cbn; lia)) as Rb.
  set (w := contrastRatio pow c white) in *. set (k := contrastRatio pow c black) in *.
  split; [ lra | ].
  intros [Fk Fw]. apply grade_belowAA in Fk. apply grade_belowAA in Fw. nra.
Qed.

Lemma contrast_labels_complement_witness :
  powOnUnit (fun x _ => x) /\ inGamut (Part000.currentColor Part000.initial)
  /\ (fst (Part000.updateContrastTests (fun x _ => x) Part000.initial)
      * snd (Part000.updateContrastTests (fun x _ => x) Part000.initial) == 21)%Q.
Proof.
  assert (A : inGamut (Part000.currentColor Part000.initial))
    by (unfold inGamut; cbn; lra).
  split; [ exact powOnUnit_identity | split; [ exact A | ] ].
  exact (proj1 (contrast_labels_complement (fun x _ => x) Part000.initial
                  powOnUnit_identity A)).
Defined.





(** ** Witnesses of the statements on greys and on the stored hue *)

Lemma round_trip_grey_witness : byte 128 /\ within 1 (roundTrip 128 128 128) 128 128 128.
Proof.
  assert (A : byte 128) by (unfold byte; lia).
  split; [ exact A | exact (round_trip_grey 128 A) ].
Defined.

Lemma stored_hue_survives_witness :
  forallb bringsNoHue
    [ Part000.AreaMouseDown area100 (Part000.mkMouse 30 40);
      Part000.OpacityMouseMove area100 (Part000.mkMouse 50 0); Part000.MouseUp ] = true
  /\ Part000.h (Part000.currentColor
                  (Part000.run (fun _ => None) Part000.initial
                     [ Part000.AreaMouseDown area100 (Part000.mkMouse 30 40);
                       Part000.OpacityMouseMove area100 (Part000.mkMouse 50 0);
                       Part000.MouseUp ]))
     = Part000.h (Part000.currentColor Part000.initial).
Proof.
  assert (A : forallb bringsNoHue
                [ Part000.AreaMouseDown area100 (Part000.mkMouse 30 40);
                  Part000.OpacityMouseMove area100 (Part000.mkMouse 50 0);
                  Part000.MouseUp ] = true) by reflexivity.
  split; [ exact A | ].
  exact (stored_hue_survives (fun _ => None) _ Part000.initial A).
Defined.
